(** * torchmlir_debugger.h: the diagnostic print adapter [printLLVMError]

    The header declares one function template,

      template <typename printType>
      void printLLVMError(void ( *func)(printType, MlirStringCallback, void * ),
                          printType obj, std::string message);

    which runs an MLIR C-API "print to callback" function against [obj],
    collects the chunks it emits in a local [std::stringstream] seeded with
    [message], and inserts the collected text and a newline into
    [llvm::errs()].

    The printing function is external code that talks to its caller through
    the callback and need not return, so it is modelled as an interaction
    tree; [printLLVMError] itself is an interaction tree over the call of
    [func] and the insertions into [llvm::errs()]. *)

From Stdlib Require Import ZArith List Lia Bool Morphisms.
From Stdlib Require Strings.Byte.
From ITree Require Import ITree ITreeFacts Events.State Events.StateFacts.
From ITree Require Import Props.Leaf.
From Paco Require Import paco.
Import ListNotations.
Import ITreeNotations.
Import Monads.
Local Open Scope itree_scope.
Local Open Scope Z_scope.

(* ===================================================================== *)
(** ** Bytes, memory and string references *)
(* ===================================================================== *)

Definition byte := Byte.byte.
Definition bytes := list byte.

(** A [const char *] is an address; memory maps addresses to chars. *)
Definition addr := Z.
Definition Memory := addr -> byte.

Definition mem_store (m : Memory) (a : addr) (b : byte) : Memory :=
  fun a' => if Z.eqb a' a then b else m a'.

(** The [n] chars of the array whose first element is at [p]. *)
Fixpoint read_chars (m : Memory) (p : addr) (n : nat) : bytes :=
  match n with
  | O => []
  | S n' => m p :: read_chars m (p + 1) n'
  end.

(** [struct MlirStringRef { const char *data; size_t length; }]: a chunk of
    text given by pointer and length, not null-terminated. *)
Record MlirStringRef : Type := mlirStringRefCreate {
  data : addr;
  length : Z
}.

(** [size_t] and [std::streamsize] are 64 bits wide. *)
Definition SIZE_MAX : Z := 2 ^ 64 - 1.
Definition PTRDIFF_MAX : Z := 2 ^ 63 - 1.

(** The implicit conversion [size_t -> std::streamsize] at the call
    [ssp->write(s.data, s.length)]: the same 64 bits read as signed. *)
Definition streamsize_of_size_t (n : Z) : Z :=
  let u := n mod 2 ^ 64 in
  if u <? 2 ^ 63 then u else u - 2 ^ 64.

(** A valid (pointer, length) pair designates an array object, whose size
    is at most [PTRDIFF_MAX]. *)
Definition valid_chunk (s : MlirStringRef) : Prop :=
  0 <= length s <= PTRDIFF_MAX.

(** The bytes a chunk designates in memory [m]. *)
Definition chunk_bytes (m : Memory) (s : MlirStringRef) : bytes :=
  read_chars m (data s) (Z.to_nat (length s)).

(* ===================================================================== *)
(** ** [std::stringstream] *)
(* ===================================================================== *)

(** The accumulator: the characters of its buffer and whether an earlier
    insertion failed ([badbit]); a stream that is not good inserts nothing. *)
Record stringstream : Type := mkStringstream {
  buffer : bytes;
  badbit : bool
}.

(** [std::stringstream ss;] *)
Definition stringstream_new : stringstream :=
  {| buffer := []; badbit := false |}.

(** [ss << str] for a [std::string]: all of its chars, by size. *)
Definition ostream_insert (ss : stringstream) (str : bytes) : stringstream :=
  if badbit ss then ss
  else {| buffer := buffer ss ++ str; badbit := false |}.

(** [ss.write(p, n)]: unformatted output of [n] chars from the array at [p].
    Chars are inserted until [n] of them are. With a negative count the
    buffer's [sputn] inserts none and returns 0, which is not [n], so the
    stream sets [badbit] (libstdc++ and libc++ agree on this). *)
Definition ostream_write (ss : stringstream) (m : Memory) (p : addr) (n : Z)
  : stringstream :=
  if badbit ss then ss
  else if n <? 0 then {| buffer := buffer ss; badbit := true |}
  else {| buffer := buffer ss ++ read_chars m p (Z.to_nat n); badbit := false |}.

(** [ss.str()] *)
Definition str (ss : stringstream) : bytes := buffer ss.

(* ===================================================================== *)
(** ** The callback convention *)
(* ===================================================================== *)

(** [typedef void ( *MlirStringCallback)(MlirStringRef, void *userData)]: a
    callback reads the chunk from memory and updates the object its user
    data points to. *)
Definition MlirStringCallback (UD : Type) : Type :=
  MlirStringRef -> UD -> Memory -> UD.

(** What a printing function can do: invoke the callback it was given on a
    chunk, passing on the user data it was given (which it treats as
    opaque); read and write memory. *)
Variant printE : Type -> Type :=
| Emit (s : MlirStringRef) : printE unit
| Load (a : addr) : printE byte
| Store (a : addr) (b : byte) : printE unit.

(** [void ( *func)(printType, MlirStringCallback, void * )] *)
Definition printer (printType : Type) : Type := printType -> itree printE unit.

(** Running a printing function with callback [callback] and user data
    [ud]: each [Emit] runs the callback on the chunk as memory holds it
    then. *)
Definition handle_print {UD F} (callback : MlirStringCallback UD)
  : printE ~> stateT (UD * Memory) (itree F) :=
  fun _ e st =>
    let (ud, m) := st in
    match e with
    | Emit s => Ret ((callback s ud m, m), tt)
    | Load a => Ret ((ud, m), m a)
    | Store a b => Ret ((ud, mem_store m a b), tt)
    end.

(* ===================================================================== *)
(** ** The program *)
(* ===================================================================== *)

(** The call through the function pointer; it answers with the user data as
    the call left it (the callee holds a pointer to it). *)
Variant callE {printType UD : Type} : Type -> Type :=
| Call (func : printer printType) (obj : printType)
       (callback : MlirStringCallback UD) (userData : UD) : callE UD.
Arguments callE : clear implicits.

(** [llvm::errs() << s] *)
Variant errsE : Type -> Type :=
| ErrsInsert (s : bytes) : errsE unit.

Definition newline : bytes := [Byte.x0a].

(** The lambda of the source:

      [](MlirStringRef s, void *stringCallbackUserData) {
        auto *ssp = static_cast<std::stringstream *>(stringCallbackUserData);
        ssp->write(s.data, s.length);
      } *)
Definition stringCallback : MlirStringCallback stringstream :=
  fun s stringCallbackUserData m =>
    let ssp := stringCallbackUserData in
    ostream_write ssp m (data s) (streamsize_of_size_t (length s)).

(** The function of the header:

      std::stringstream ss;
      ss << message;
      auto stringCallback = ...;
      func(obj, stringCallback, static_cast<void *>(&ss));
      llvm::errs() << ss.str() << "\n";

    The last statement is two insertions, [ss.str()] and then the newline. *)
Definition printLLVMError {printType : Type}
    (func : printer printType) (obj : printType) (message : bytes)
  : itree (callE printType stringstream +' errsE) unit :=
  let ss := stringstream_new in
  let ss := ostream_insert ss message in
  ss <- trigger (Call func obj stringCallback ss) ;;
  trigger (ErrsInsert (str ss)) ;;
  trigger (ErrsInsert newline).

(* ===================================================================== *)
(** ** Running the program *)
(* ===================================================================== *)

(** The call runs the body of [func] against the callback. *)
Definition handle_call {printType UD F}
  : callE printType UD ~> stateT Memory (itree F) :=
  fun _ e m =>
    match e with
    | Call func obj callback userData =>
        ITree.map (fun r => (snd (fst r), fst (fst r)))
                  (interp_state (handle_print callback) (func obj) (userData, m))
    end.

(** The program with its call resolved: what is left to see are the
    insertions into [llvm::errs()]. *)
Definition run_calls {printType UD}
  : itree (callE printType UD +' errsE) ~> stateT Memory (itree errsE) :=
  interp_state (case_ handle_call pure_state).

(** The standard streams of the process. *)
Record Streams : Type := mkStreams {
  stdout : bytes;
  stderr : bytes
}.

Definition handle_errs : errsE ~> stateT Streams (itree void1) :=
  fun _ e st =>
    match e with
    | ErrsInsert s => Ret ({| stdout := stdout st; stderr := stderr st ++ s |}, tt)
    end.

(** A whole run, from the streams [st] and the memory [m]. *)
Definition run {printType UD R} (t : itree (callE printType UD +' errsE) R)
    (st : Streams) (m : Memory) : itree void1 (Streams * (Memory * R)) :=
  interp_state handle_errs (run_calls _ t m) st.

(** A run cut after [n] steps: [Some] once the program has returned. *)
Fixpoint steps {R : Type} (n : nat) (t : itree void1 R) : option R :=
  match n with
  | O => None
  | S n' =>
      match observe t with
      | RetF r => Some r
      | TauF u => steps n' u
      | VisF e _ => match e in void1 _ with end
      end
  end.

(* ===================================================================== *)
(** ** Behaviours of a printing function *)
(* ===================================================================== *)

(** What the callback received in one invocation: the chunk, and memory as
    it was then. *)
Definition invocation : Type := (MlirStringRef * Memory)%type.

Definition invocation_bytes (c : invocation) : bytes :=
  chunk_bytes (snd c) (fst c).

Definition invocation_valid (c : invocation) : Prop := valid_chunk (fst c).

(** The length of the chunk is a [size_t] value. *)
Definition invocation_sized (c : invocation) : Prop :=
  0 <= length (fst c) <= SIZE_MAX.

(** [func_returns t m cs m']: started in memory [m], the printing function
    [t] invokes the callback on [cs], in this order, and then returns,
    leaving memory [m']. *)
Inductive func_returns
  : itree printE unit -> Memory -> list invocation -> Memory -> Prop :=
| returns_ret t m :
    observe t = RetF tt ->
    func_returns t m [] m
| returns_tau t u m cs m' :
    observe t = TauF u ->
    func_returns u m cs m' ->
    func_returns t m cs m'
| returns_emit t s k m cs m' :
    observe t = VisF (Emit s) k ->
    func_returns (k tt) m cs m' ->
    func_returns t m ((s, m) :: cs) m'
| returns_load t a k m cs m' :
    observe t = VisF (Load a) k ->
    func_returns (k (m a)) m cs m' ->
    func_returns t m cs m'
| returns_store t a b k m cs m' :
    observe t = VisF (Store a b) k ->
    func_returns (k tt) (mem_store m a b) cs m' ->
    func_returns t m cs m'.

(** The user data after the callback ran on each invocation in turn. *)
Definition run_callbacks {UD} (callback : MlirStringCallback UD)
    (cs : list invocation) (ud : UD) : UD :=
  fold_left (fun ud c => callback (fst c) ud (snd c)) cs ud.

(** The accumulator as [func] finds it: seeded with the message. *)
Definition seeded (message : bytes) : stringstream :=
  ostream_insert stringstream_new message.

(** The accumulated text of a whole call: what [ss.str()] gives once the
    callbacks [cs] have run. *)
Definition accumulated (message : bytes) (cs : list invocation) : bytes :=
  str (run_callbacks stringCallback cs (seeded message)).

(** The call of [func], as the program makes it. *)
Definition the_call {printType} (func : printer printType) (obj : printType)
    (message : bytes) (m : Memory)
  : itree errsE (stringstream * Memory * unit) :=
  interp_state (handle_print stringCallback) (func obj) (seeded message, m).

(** The two insertions of the last statement, after a call that left the
    accumulator and the memory [r]. *)
Definition emit (r : stringstream * Memory * unit) : itree errsE (Memory * unit) :=
  ITree.trigger (ErrsInsert (str (fst (fst r)))) ;;
  ITree.trigger (ErrsInsert newline) ;;
  Ret (snd (fst r), tt).

(* ===================================================================== *)
(** ** Observations *)
(* ===================================================================== *)

(** [prints func obj message st m text]: the call returns, and what it has
    added to the standard error stream is [text]; nothing else changed in
    the streams. *)
Definition prints {printType} (func : printer printType) (obj : printType)
    (message : bytes) (st : Streams) (m : Memory) (text : bytes) : Prop :=
  exists m',
    run (printLLVMError func obj message) st m
    ≈ Ret ({| stdout := stdout st; stderr := stderr st ++ text |}, (m', tt)).

(** The line terminators of a text: each ends one line. *)
Definition line_count (text : bytes) : nat :=
  count_occ Stdlib.Strings.Byte.byte_eq_dec text Byte.x0a.

(** [is_trace t l]: at some moment of its run, [t] has made the insertions
    [l] into [llvm::errs()], in this order, and no other. *)
Inductive is_trace {R : Type} : itree errsE R -> list bytes -> Prop :=
| trace_nil t :
    is_trace t []
| trace_tau t u l :
    observe t = TauF u ->
    is_trace u l ->
    is_trace t l
| trace_insert t s k l :
    observe t = VisF (ErrsInsert s) k ->
    is_trace (k tt) l ->
    is_trace t (s :: l).

(** The insertion at the root of a tree, with the tree that follows it. *)
Definition root_insertion {R} (o : itree' errsE R) : option (bytes * itree errsE R) :=
  match o with
  | VisF e k =>
      match e in errsE X return (X -> itree errsE R) -> _ with
      | ErrsInsert s => fun k => Some (s, k tt)
      end k
  | _ => None
  end.

(** What the program itself does, step by step: it calls a printing
    function on an object, or inserts into [llvm::errs()]. *)
Variant action {printType : Type} : Type :=
| CallOf (func : printer printType) (obj : printType)
| InsertOf (s : bytes).
Arguments action : clear implicits.

Definition action_of {printType X}
    (e : (callE printType stringstream +' errsE) X) : action printType :=
  match e with
  | inl1 (Call func obj _ _) => CallOf func obj
  | inr1 (ErrsInsert s) => InsertOf s
  end.

Definition is_call {printType} (a : action printType) : bool :=
  match a with
  | CallOf _ _ => true
  | InsertOf _ => false
  end.

(** How many calls of a printing function a sequence of actions has. *)
Definition calls {printType} (l : list (action printType)) : nat :=
  List.length (filter is_call l).

(** [executes t l done]: the program [t] performs the actions [l], whatever
    its calls answer; [done] tells whether it has returned after them, or is
    still under way. *)
Inductive executes {printType : Type}
  : itree (callE printType stringstream +' errsE) unit
    -> list (action printType) -> bool -> Prop :=
| exec_cut t :
    executes t [] false
| exec_ret t :
    observe t = RetF tt ->
    executes t [] true
| exec_tau t u l d :
    observe t = TauF u ->
    executes u l d ->
    executes t l d
| exec_vis X (e : (callE printType stringstream +' errsE) X) t k x l d :
    observe t = VisF e k ->
    executes (k x) l d ->
    executes t (action_of e :: l) d.

(* ===================================================================== *)
(** ** The call in the process: objects, streams and pointers *)
(* ===================================================================== *)

(** The same function once more, with what the definitions above keep out
    of sight: the accumulator is an object on the stack, reached by the
    callback through the [void *] it is handed; [llvm::errs()] is one of two
    streams; a callback is code that may do anything a function can do. *)
Module Frame.

(** [llvm::outs()] and [llvm::errs()] *)
Variant raw_ostream : Type := outs | errs.

(** Objects with automatic storage: a [std::string] or a
    [std::stringstream]. *)
Variant object : Type :=
| String (chars : bytes)
| Stringstream (ss : stringstream).

(** A pointer to an object is its place on the stack. *)
Definition objptr : Type := nat.

Record World : Type := mkWorld {
  memory : Memory;
  stack : list object;
  outs_text : bytes;
  errs_text : bytes;
  undefined : bool
}.

Definition with_memory (w : World) (m : Memory) : World :=
  {| memory := m; stack := stack w; outs_text := outs_text w;
     errs_text := errs_text w; undefined := undefined w |}.

Definition with_stack (w : World) (st : list object) : World :=
  {| memory := memory w; stack := st; outs_text := outs_text w;
     errs_text := errs_text w; undefined := undefined w |}.

(** A pointer was used that does not point to a live object of the type it
    is cast to. *)
Definition fault (w : World) : World :=
  {| memory := memory w; stack := stack w; outs_text := outs_text w;
     errs_text := errs_text w; undefined := true |}.

Definition insert_into (w : World) (os : raw_ostream) (s : bytes) : World :=
  match os with
  | outs => {| memory := memory w; stack := stack w;
               outs_text := outs_text w ++ s;
               errs_text := errs_text w; undefined := undefined w |}
  | errs => {| memory := memory w; stack := stack w;
               outs_text := outs_text w;
               errs_text := errs_text w ++ s; undefined := undefined w |}
  end.

(** [static_cast<std::stringstream *>(p)], dereferenced. *)
Definition stream_at (w : World) (p : objptr) : option stringstream :=
  match nth_error (stack w) p with
  | Some (Stringstream ss) => Some ss
  | _ => None
  end.

Fixpoint set_object (st : list object) (p : objptr) (o : object) : list object :=
  match st, p with
  | [], _ => []
  | _ :: st', O => o :: st'
  | x :: st', S p' => x :: set_object st' p' o
  end.

(** What the function and a callback can do. *)
Variant cppE : Type -> Type :=
| SsCtor : cppE objptr
| SsDtor (ss : objptr) : cppE unit
| SsInsert (ss : objptr) (str : bytes) : cppE unit
| SsWrite (ssp : objptr) (p : addr) (n : Z) : cppE unit
| SsStr (ss : objptr) : cppE bytes
| OsInsert (os : raw_ostream) (s : bytes) : cppE unit
| MemLoad (a : addr) : cppE byte
| MemStore (a : addr) (b : byte) : cppE unit.

Definition step_cpp {X : Type} (e : cppE X) (w : World) : World * X :=
  match e in cppE X return World * X with
  | SsCtor =>
      (with_stack w (stack w ++ [Stringstream stringstream_new]),
       List.length (stack w))
  | SsDtor ss =>
      match stream_at w ss with
      | Some _ =>
          if Nat.eqb (S ss) (List.length (stack w))
          then (with_stack w (removelast (stack w)), tt)
          else (fault w, tt)
      | None => (fault w, tt)
      end
  | SsInsert ss str =>
      match stream_at w ss with
      | Some s =>
          (with_stack w (set_object (stack w) ss
                           (Stringstream (ostream_insert s str))), tt)
      | None => (fault w, tt)
      end
  | SsWrite ssp p n =>
      match stream_at w ssp with
      | Some s =>
          (with_stack w (set_object (stack w) ssp
                           (Stringstream (ostream_write s (memory w) p n))), tt)
      | None => (fault w, tt)
      end
  | SsStr ss =>
      match stream_at w ss with
      | Some s => (w, str s)
      | None => (fault w, [])
      end
  | OsInsert os s => (insert_into w os s, tt)
  | MemLoad a => (w, memory w a)
  | MemStore a b => (with_memory w (mem_store (memory w) a b), tt)
  end.

Definition handle_cpp : cppE ~> stateT World (itree void1) :=
  fun _ e w => Ret (step_cpp e w).

(** [typedef void ( *MlirStringCallback)(MlirStringRef, void *userData)] *)
Definition MlirStringCallback : Type :=
  MlirStringRef -> objptr -> itree cppE unit.

(** The lambda of the source. *)
Definition stringCallback : MlirStringCallback :=
  fun s stringCallbackUserData =>
    let ssp := stringCallbackUserData in
    ITree.trigger (SsWrite ssp (data s) (streamsize_of_size_t (length s))).

(** The call through the function pointer. *)
Variant callE {printType : Type} : Type -> Type :=
| Call (func : printer printType) (obj : printType)
       (callback : MlirStringCallback) (userData : objptr) : callE unit.
Arguments callE : clear implicits.

(** The function of the header; [ss] is destroyed when it returns. *)
Definition printLLVMError {printType : Type}
    (func : printer printType) (obj : printType) (message : bytes)
  : itree (callE printType +' cppE) unit :=
  ss <- trigger SsCtor ;;
  trigger (SsInsert ss message) ;;
  trigger (Call func obj stringCallback ss) ;;
  text <- trigger (SsStr ss) ;;
  trigger (OsInsert errs text) ;;
  trigger (OsInsert errs newline) ;;
  trigger (SsDtor ss).

(** The printing function, run against a callback and the user data. *)
Definition handle_print (callback : MlirStringCallback) (userData : objptr)
  : printE ~> itree cppE :=
  fun _ e =>
    match e with
    | Emit s => callback s userData
    | Load a => ITree.trigger (MemLoad a)
    | Store a b => ITree.trigger (MemStore a b)
    end.

Definition handle_call {printType} : callE printType ~> itree cppE :=
  fun _ e =>
    match e with
    | Call func obj callback userData =>
        interp (handle_print callback userData) (func obj)
    end.

Definition handle_own : cppE ~> itree cppE := fun _ e => ITree.trigger e.

(** A whole run, from the world [w]. *)
Definition run {printType R} (t : itree (callE printType +' cppE) R) (w : World)
  : itree void1 (World * R) :=
  interp_state handle_cpp (interp (case_ handle_call handle_own) t) w.

(** A callback that also reports each chunk on [llvm::outs()]. *)
Definition echoCallback : MlirStringCallback :=
  fun s ud =>
    ITree.trigger (SsWrite ud (data s) (streamsize_of_size_t (length s))) ;;
    ITree.trigger (OsInsert outs newline).

End Frame.

(* ===================================================================== *)
(** ** Some printing functions *)
(* ===================================================================== *)

Module Samples.

Definition chunk (p : addr) (n : Z) : MlirStringRef :=
  {| data := p; length := n |}.

(** Returns at once. *)
Definition silent : printer unit := fun _ => Ret tt.

(** Never returns. *)
Definition stuck : printer unit := fun _ => ITree.spin.

(** Emits the three chars at addresses 0, 1, 2 one by one. *)
Definition one_by_one : printer unit := fun _ =>
  ITree.trigger (Emit (chunk 0 1)) ;;
  ITree.trigger (Emit (chunk 1 1)) ;;
  ITree.trigger (Emit (chunk 2 1)).

(** Emits them as one chunk. *)
Definition at_once : printer unit := fun _ =>
  ITree.trigger (Emit (chunk 0 3)).

(** Formats each char of its object into the same one-char buffer, and
    emits the buffer each time. *)
Fixpoint through_buffer (obj : bytes) : itree printE unit :=
  match obj with
  | [] => Ret tt
  | b :: obj' =>
      ITree.trigger (Store 16 b) ;;
      ITree.trigger (Emit (chunk 16 1)) ;;
      through_buffer obj'
  end.

(** Memory holding "abc" at address 0, and NUL elsewhere. *)
Definition abc : Memory :=
  fun a => if a =? 0 then Byte.x61
           else if a =? 1 then Byte.x62
           else if a =? 2 then Byte.x63
           else Byte.x00.

(** Memory holding 'a', NUL, 0xC3 (the first half of a two-byte UTF-8
    sequence) at address 0. *)
Definition with_nul : Memory :=
  fun a => if a =? 0 then Byte.x61
           else if a =? 1 then Byte.x00
           else if a =? 2 then Byte.xc3
           else Byte.x00.

(** What [one_by_one] and [at_once] make the callback receive over [abc]. *)
Definition abc_one_by_one : list invocation :=
  [ (chunk 0 1, abc); (chunk 1 1, abc); (chunk 2 1, abc) ].

Definition abc_at_once : list invocation := [ (chunk 0 3, abc) ].

(** What [through_buffer] makes it receive for "abc", and the memory it
    leaves: three times the same (pointer, length) pair, over a buffer that
    changes in between. *)
Definition abc_buffered : Memory :=
  mem_store (mem_store (mem_store abc 16 Byte.x61) 16 Byte.x62) 16 Byte.x63.

Definition abc_through_buffer : list invocation :=
  [ (chunk 16 1, mem_store abc 16 Byte.x61);
    (chunk 16 1, mem_store (mem_store abc 16 Byte.x61) 16 Byte.x62);
    (chunk 16 1, abc_buffered) ].

(** A process under way: the caller's message and a stream of its own on
    the stack, and some text on [llvm::outs()] already. *)
Definition busy : Frame.World :=
  {| Frame.memory := abc;
     Frame.stack := [Frame.String [Byte.x65; Byte.x72; Byte.x72; Byte.x3a; Byte.x20];
                     Frame.Stringstream
                       {| buffer := [Byte.x61; Byte.x0a; Byte.x62]; badbit := false |}];
     Frame.outs_text := [Byte.x61];
     Frame.errs_text := [];
     Frame.undefined := false |}.

Definition no_output : Streams := {| stdout := []; stderr := [] |}.

(** "err: " *)
Definition err : bytes := [Byte.x65; Byte.x72; Byte.x72; Byte.x3a; Byte.x20].

(** A message of two lines: "a\nb". *)
Definition two_lines : bytes := [Byte.x61; Byte.x0a; Byte.x62].

End Samples.

(* ===================================================================== *)
(** * Properties *)
(* ===================================================================== *)

(** ** The accumulator *)

Lemma streamsize_of_valid (n : Z) :
  0 <= n <= PTRDIFF_MAX -> streamsize_of_size_t n = n.
Proof.
  unfold streamsize_of_size_t, PTRDIFF_MAX. intros Hn.
  rewrite Z.mod_small by lia.
  destruct (n <? 2 ^ 63) eqn:E; [reflexivity | apply Z.ltb_ge in E; lia].
Qed.

Lemma stringCallback_valid (s : MlirStringRef) (ss : stringstream) (m : Memory) :
  valid_chunk s -> badbit ss = false ->
  stringCallback s ss m
  = {| buffer := buffer ss ++ chunk_bytes m s; badbit := false |}.
Proof.
  intros Hs Hgood. unfold stringCallback, ostream_write, chunk_bytes.
  rewrite Hgood, (streamsize_of_valid _ Hs).
  destruct (length s <? 0) eqn:E;
    [apply Z.ltb_lt in E; destruct Hs; lia | reflexivity].
Qed.

Lemma run_callbacks_valid (cs : list invocation) :
  Forall invocation_valid cs ->
  forall ss, badbit ss = false ->
  run_callbacks stringCallback cs ss
  = {| buffer := buffer ss ++ concat (List.map invocation_bytes cs);
       badbit := false |}.
Proof.
  induction 1 as [|c cs Hc _ IH]; intros ss Hgood; cbn.
  - rewrite app_nil_r. destruct ss; cbn in *; congruence.
  - unfold run_callbacks in IH. rewrite (stringCallback_valid _ _ _ Hc Hgood).
    rewrite IH by reflexivity. cbn. rewrite <- app_assoc. reflexivity.
Qed.

Lemma accumulated_valid (message : bytes) (cs : list invocation) :
  Forall invocation_valid cs ->
  accumulated message cs = message ++ concat (List.map invocation_bytes cs).
Proof.
  intros Hcs. unfold accumulated.
  rewrite (run_callbacks_valid cs Hcs) by reflexivity. reflexivity.
Qed.

Lemma read_chars_length (m : Memory) (n : nat) :
  forall p, List.length (read_chars m p n) = n.
Proof. induction n as [|n IH]; intros p; cbn; [reflexivity | now rewrite IH]. Qed.

Lemma read_chars_nth (m : Memory) (n : nat) :
  forall p i d, (i < n)%nat ->
  nth i (read_chars m p n) d = m (p + Z.of_nat i).
Proof.
  induction n as [|n IH]; intros p i d Hi; [lia |].
  destruct i as [|i]; cbn [read_chars nth].
  - f_equal. lia.
  - rewrite IH by lia. f_equal. lia.
Qed.

(** For lengths that are [size_t] values, the callback depends on a chunk
    through its bytes only. *)
Lemma stringCallback_bytes (s1 s2 : MlirStringRef) (m1 m2 : Memory) (ss : stringstream) :
  0 <= length s1 <= SIZE_MAX -> 0 <= length s2 <= SIZE_MAX ->
  chunk_bytes m1 s1 = chunk_bytes m2 s2 ->
  stringCallback s1 ss m1 = stringCallback s2 ss m2.
Proof.
  unfold SIZE_MAX. intros H1 H2 Hb.
  assert (Hlen : length s1 = length s2).
  { apply (f_equal (@List.length byte)) in Hb. unfold chunk_bytes in Hb.
    rewrite !read_chars_length in Hb. lia. }
  unfold stringCallback, ostream_write. rewrite <- Hlen.
  destruct (badbit ss); [reflexivity |].
  destruct (streamsize_of_size_t (length s1) <? 0) eqn:E; [reflexivity |].
  apply Z.ltb_ge in E.
  assert (Hn : streamsize_of_size_t (length s1) = length s1).
  { revert E. unfold streamsize_of_size_t. rewrite Z.mod_small by lia.
    destruct (length s1 <? 2 ^ 63); lia. }
  rewrite Hn. unfold chunk_bytes in Hb. rewrite <- Hlen in Hb. now rewrite Hb.
Qed.

Lemma run_callbacks_bytes (cs1 : list invocation) :
  forall (cs2 : list invocation) (ss : stringstream),
    Forall invocation_sized cs1 -> Forall invocation_sized cs2 ->
    List.map invocation_bytes cs1 = List.map invocation_bytes cs2 ->
    run_callbacks stringCallback cs1 ss = run_callbacks stringCallback cs2 ss.
Proof.
  induction cs1 as [|c1 cs1 IH]; intros [|c2 cs2] ss H1 H2 Hb;
    try discriminate; [reflexivity |].
  inversion H1; subst. inversion H2; subst. injection Hb as Hc Hb.
  cbn. rewrite (stringCallback_bytes (fst c1) (fst c2) (snd c1) (snd c2)) by assumption.
  apply IH; assumption.
Qed.

Lemma line_count_app (a b : bytes) :
  line_count (a ++ b) = (line_count a + line_count b)%nat.
Proof. apply count_occ_app. Qed.

(* ===================================================================== *)
(** ** The call *)
(* ===================================================================== *)

Section Call.

Context {UD : Type} {F : Type -> Type} (callback : MlirStringCallback UD).

(** A printing function that returns makes the call return, with the user
    data the callbacks left. *)
Lemma call_returns (t : itree printE unit) (m m' : Memory) (cs : list invocation) :
  func_returns t m cs m' ->
  forall ud : UD,
    interp_state (handle_print (F := F) callback) t (ud, m)
    ≈ Ret ((run_callbacks callback cs ud, m'), tt).
Proof.
  induction 1 as [t m Ht | t u m cs m' Ht _ IH | t s k m cs m' Ht _ IH
                 | t a k m cs m' Ht _ IH | t a b k m cs m' Ht _ IH];
    intros ud; rewrite (itree_eta t), Ht.
  - rewrite interp_state_ret. reflexivity.
  - rewrite interp_state_tau, tau_eutt. apply IH.
  - rewrite interp_state_vis. cbn. rewrite bind_ret_l, tau_eutt. cbn. apply IH.
  - rewrite interp_state_vis. cbn. rewrite bind_ret_l, tau_eutt. cbn. apply IH.
  - rewrite interp_state_vis. cbn. rewrite bind_ret_l, tau_eutt. cbn. apply IH.
Qed.


(** Conversely, a call that returns comes from a printing function that
    returned. *)
Lemma call_returned (r : UD * Memory * unit) (u : itree F (UD * Memory * unit)) :
  Leaf r u ->
  forall (t : itree printE unit) (ud : UD) (m : Memory),
    u ≅ interp_state (handle_print callback) t (ud, m) ->
    exists cs, func_returns t m cs (snd (fst r))
               /\ fst (fst r) = run_callbacks callback cs ud.
Proof.
  induction 1 as [u Hu | u u' Hu _ IH | X e u k x Hu _ IH]; intros t ud m Heq;
    rewrite unfold_interp_state in Heq; apply eqit_inv in Heq;
    unfold observe in Hu; rewrite Hu in Heq; clear Hu;
    destruct (observe t) as [[] | t' | Y e' k'] eqn:Ht; cbn in Heq;
    try contradiction; try (destruct e'; cbn in Heq; contradiction).
  - subst r. exists []. split; [constructor; assumption | reflexivity].
  - destruct (IH _ _ _ Heq) as (cs & Hcs & Hud).
    exists cs. split; [eapply returns_tau; eassumption | assumption].
  - destruct e' as [s | a | a b]; cbn in Heq;
      destruct (IH _ _ _ Heq) as (cs & Hcs & Hud); cbn [fst snd] in *.
    + exists ((s, m) :: cs). split; [eapply returns_emit; eassumption | assumption].
    + exists cs. split; [eapply returns_load; eassumption | assumption].
    + exists cs. split; [eapply returns_store; eassumption | assumption].
Qed.

End Call.

(* ===================================================================== *)
(** ** What reaches [llvm::errs()], and when *)
(* ===================================================================== *)

Lemma is_trace_Tau {R} (t : itree errsE R) l : is_trace t l -> is_trace (Tau t) l.
Proof. intros H. eapply trace_tau; [reflexivity | exact H]. Qed.

Lemma is_trace_Vis {R} s (k : unit -> itree errsE R) l :
  is_trace (k tt) l -> is_trace (Vis (ErrsInsert s) k) (s :: l).
Proof. intros H. eapply trace_insert; [reflexivity | exact H]. Qed.

Lemma is_trace_Ret_inv {R} (r : R) l : is_trace (Ret r : itree errsE R) l -> l = [].
Proof.
  intros H. remember (Ret r) as u eqn:Eu.
  destruct H as [u | u u' l Hu _ | u s k l Hu _]; subst u; cbn in *;
    [reflexivity | discriminate | discriminate].
Qed.

Lemma is_trace_Tau_inv {R} (t : itree errsE R) l : is_trace (Tau t) l -> is_trace t l.
Proof.
  intros H. remember (Tau t) as u eqn:Eu.
  destruct H as [u | u u' l Hu H | u s k l Hu _]; subst u; cbn in *.
  - constructor.
  - injection Hu as ->. exact H.
  - discriminate.
Qed.

Lemma is_trace_Vis_inv {R} s (k : unit -> itree errsE R) l :
  is_trace (Vis (ErrsInsert s) k) l ->
  l = [] \/ exists l', l = s :: l' /\ is_trace (k tt) l'.
Proof.
  intros H. remember (Vis (ErrsInsert s) k) as u eqn:Eu.
  destruct H as [u | u u' l Hu _ | u s' k' l Hu H]; subst u; cbn in *.
  - now left.
  - discriminate.
  - right. exists l. apply (f_equal root_insertion) in Hu. cbn in Hu.
    injection Hu as -> ->. split; [reflexivity | exact H].
Qed.

(** Traces do not see silent steps. *)
Lemma is_trace_eutt_l {R} (t : itree errsE R) l :
  is_trace t l -> forall u, t ≈ u -> is_trace u l.
Proof.
  induction 1 as [t | t t' l Ht _ IH | t s k l Ht _ IH]; intros u Heq.
  - constructor.
  - apply IH. rewrite <- Heq, (itree_eta t), Ht, tau_eutt. reflexivity.
  - rewrite (itree_eta t), Ht in Heq. clear Ht t.
    punfold Heq. red in Heq. cbn in Heq.
    remember (VisF (ErrsInsert s) k) as ot eqn:Eot.
    remember (observe u) as ou eqn:Eou. revert u Eou.
    induction Heq as [| | X e k1 k2 REL | | t1 ot2 t2 Heq IHeq]; intros u Eou; try discriminate.
    + pose proof (f_equal root_insertion Eot) as Hroot.
      destruct e as [s0]. cbn in Hroot. injection Hroot as -> Hk.
      eapply trace_insert; [symmetry; exact Eou |].
      apply IH. rewrite <- Hk. specialize (REL tt). pclearbot. exact REL.
    + eapply trace_tau; [symmetry; exact Eou |].
      eapply IHeq; [assumption | reflexivity].
Qed.

#[global] Instance is_trace_eutt {R} :
  Proper (eutt eq ==> eq ==> iff) (@is_trace R).
Proof.
  intros t u Heq l ? <-. split; intros H.
  - exact (is_trace_eutt_l _ _ H _ Heq).
  - symmetry in Heq. exact (is_trace_eutt_l _ _ H _ Heq).
Qed.

(** A tree that inserts nothing, followed by another: nothing is inserted
    until the first has returned. *)
Lemma is_trace_bind_silent {R S} (k : R -> itree errsE S) l (u : itree errsE S) :
  is_trace u l ->
  forall t : itree errsE R,
    u = ITree.bind t k ->
    (forall l', is_trace t l' -> l' = []) ->
    l = [] \/ exists r, Leaf r t /\ is_trace (k r) l.
Proof.
  induction 1 as [u | u u' l Hu Hl IH | u s k' l Hu Hl IH]; intros t -> Hsilent.
  - now left.
  - unfold observe in Hu. cbn in Hu. destruct (observe t) as [r | t' | X e h] eqn:Ht;
      cbn in Hu.
    + right. exists r. split; [apply LeafRet; exact Ht |].
      eapply trace_tau; eassumption.
    + injection Hu as <-.
      destruct (IH t' eq_refl) as [-> | (r & Hr & Hk)].
      * intros l' Hl'. apply Hsilent. eapply trace_tau; eassumption.
      * now left.
      * right. exists r. split; [eapply LeafTau; eassumption | exact Hk].
    + discriminate.
  - unfold observe in Hu. cbn in Hu. destruct (observe t) as [r | t' | X e h] eqn:Ht;
      cbn in Hu.
    + right. exists r. split; [apply LeafRet; exact Ht |].
      eapply trace_insert; eassumption.
    + discriminate.
    + exfalso. destruct e as [s0].
      assert (Hbad : is_trace t [s0]) by (eapply trace_insert; [exact Ht | constructor]).
      apply Hsilent in Hbad. discriminate.
Qed.

Section Silent.

Context {UD : Type} (callback : MlirStringCallback UD).

(** While the printing function runs, nothing is inserted: the callback
    only touches its user data. *)
Lemma call_silent (u : itree errsE (UD * Memory * unit)) l :
  is_trace u l ->
  forall (t : itree printE unit) (st : UD * Memory),
    u ≅ interp_state (handle_print callback) t st ->
    l = [].
Proof.
  induction 1 as [u | u u' l Hu _ IH | u s k l Hu _ IH]; intros t [ud m] Heq.
  - reflexivity.
  - rewrite unfold_interp_state in Heq. apply eqit_inv in Heq.
    unfold observe in Hu. rewrite Hu in Heq. clear Hu.
    destruct (observe t) as [[] | t' | Y e' k'] eqn:Ht; cbn in Heq.
    + contradiction.
    + exact (IH _ _ Heq).
    + destruct e'; cbn in Heq; exact (IH _ _ Heq).
  - rewrite unfold_interp_state in Heq. apply eqit_inv in Heq.
    unfold observe in Hu. rewrite Hu in Heq. clear Hu.
    destruct (observe t) as [[] | t' | Y e' k'] eqn:Ht; cbn in Heq;
      try contradiction.
    destruct e'; cbn in Heq; contradiction.
Qed.

End Silent.

(* ===================================================================== *)
(** ** Runs cut after finitely many steps *)
(* ===================================================================== *)

Lemma steps_returns {R} (n : nat) :
  forall (t : itree void1 R) (r : R), steps n t = Some r -> t ≈ Ret r.
Proof.
  induction n as [|n IH]; intros t r H; cbn in H; [discriminate |].
  rewrite (itree_eta t). destruct (observe t) as [r' | u | X e k].
  - injection H as ->. reflexivity.
  - rewrite tau_eutt. apply IH. exact H.
  - destruct e.
Qed.

Lemma returns_steps {R} (t : itree void1 R) (r : R) :
  t ≈ Ret r -> exists n, steps n t = Some r.
Proof.
  intros H. punfold H. red in H. cbn in H.
  remember (RetF r) as o eqn:Eo. remember (observe t) as ot eqn:Eot.
  revert t Eot.
  induction H as [r1 r2 Hr | | | t1 ot2 _ Heq IH |]; intros t Eot; try discriminate.
  - injection Eo as <-. subst r2. exists 1%nat. cbn. now rewrite <- Eot.
  - destruct (IH Eo t1 eq_refl) as [n Hn]. exists (S n). cbn. now rewrite <- Eot.
Qed.

(* ===================================================================== *)
(** ** The program *)
(* ===================================================================== *)

Ltac expose_vis :=
  unfold trigger, subevent, resum, ReSum_inl, ReSum_inr, ReSum_id, id_,
    Id_IFun, cat, Cat_IFun, inl_, inr_, Inl_sum1, Inr_sum1, resum.

Section Program.

Context {printType : Type}.
Variable func : printer printType.
Variable obj : printType.
Variable message : bytes.

(** Whatever [func] does, the program is the call followed by the two
    insertions. *)
Lemma run_calls_printLLVMError (m : Memory) :
  run_calls _ (printLLVMError func obj message) m
  ≈ ITree.bind (the_call func obj message m) emit.
Proof.
  unfold run_calls, printLLVMError, the_call.
  rewrite interp_state_bind. expose_vis.
  rewrite interp_state_vis. cbn. unfold ITree.map. rewrite !bind_bind.
  eapply eutt_clo_bind; [reflexivity |].
  intros r ? <-. rewrite bind_ret_l. cbn.
  rewrite tau_eutt, interp_state_ret, bind_ret_l. cbn.
  rewrite interp_state_bind, interp_state_vis. cbn.
  unfold pure_state, emit, ITree.trigger. rewrite !bind_vis.
  apply eqit_Vis. intros []. rewrite !bind_ret_l. cbn.
  rewrite tau_eutt, interp_state_ret, bind_ret_l. cbn.
  rewrite interp_state_vis. cbn. rewrite !bind_vis.
  apply eqit_Vis. intros []. rewrite !bind_ret_l. cbn.
  rewrite tau_eutt, interp_state_ret. reflexivity.
Qed.

(** A returning printing function makes the whole run return. *)
Lemma run_printLLVMError (st : Streams) (m m' : Memory) (cs : list invocation) :
  func_returns (func obj) m cs m' ->
  run (printLLVMError func obj message) st m
  ≈ Ret ({| stdout := stdout st;
            stderr := stderr st ++ accumulated message cs ++ newline |},
         (m', tt)).
Proof.
  intros Hret. unfold run. rewrite run_calls_printLLVMError.
  unfold the_call. rewrite (call_returns stringCallback _ _ _ _ Hret).
  rewrite bind_ret_l. unfold emit. cbn [fst snd].
  rewrite interp_state_bind, interp_state_trigger. cbn. rewrite bind_ret_l. cbn.
  rewrite interp_state_bind, interp_state_trigger. cbn. rewrite bind_ret_l. cbn.
  rewrite interp_state_ret. rewrite <- app_assoc. reflexivity.
Qed.

Lemma prints_accumulated (st : Streams) (m m' : Memory) (cs : list invocation) :
  func_returns (func obj) m cs m' ->
  prints func obj message st m (accumulated message cs ++ newline).
Proof. intros Hret. exists m'. now apply run_printLLVMError. Qed.

(** A run has one outcome. *)
Lemma prints_functional (st : Streams) (m : Memory) (text1 text2 : bytes) :
  prints func obj message st m text1 ->
  prints func obj message st m text2 ->
  text1 = text2.
Proof.
  intros [m1 H1] [m2 H2]. rewrite H1 in H2. apply eutt_inv_Ret in H2.
  injection H2 as Herr _. now apply app_inv_head in Herr.
Qed.

(** At any moment, what has reached [llvm::errs()]. *)
Lemma traces_printLLVMError (m : Memory) (l : list bytes) :
  is_trace (run_calls _ (printLLVMError func obj message) m) l ->
  l = [] \/
  exists cs m',
    func_returns (func obj) m cs m'
    /\ (l = [accumulated message cs] \/ l = [accumulated message cs; newline]).
Proof.
  rewrite run_calls_printLLVMError. intros Hl.
  destruct (is_trace_bind_silent emit l _ Hl (the_call func obj message m) eq_refl)
    as [-> | (r & Hr & Hk)].
  - intros l' Hl'.
    eapply (call_silent stringCallback); [exact Hl' | unfold the_call; reflexivity].
  - now left.
  - destruct (call_returned stringCallback r _ Hr (func obj) (seeded message) m)
      as (cs & Hcs & Hss); [unfold the_call; reflexivity |].
    unfold emit, ITree.trigger in Hk. rewrite bind_vis in Hk.
    apply is_trace_Vis_inv in Hk. destruct Hk as [-> | (l1 & -> & Hk)]; [now left |].
    right. exists cs, (snd (fst r)). split; [exact Hcs |].
    rewrite bind_ret_l, bind_vis in Hk.
    apply is_trace_Vis_inv in Hk. destruct Hk as [-> | (l2 & -> & Hk)].
    + left. unfold accumulated. now rewrite <- Hss.
    + right. rewrite bind_ret_l in Hk. apply is_trace_Ret_inv in Hk. subst l2.
      unfold accumulated. now rewrite <- Hss.
Qed.

(** Once [func] has returned, both insertions do happen. *)
Lemma full_trace_printLLVMError (m m' : Memory) (cs : list invocation) :
  func_returns (func obj) m cs m' ->
  is_trace (run_calls _ (printLLVMError func obj message) m)
           [accumulated message cs; newline].
Proof.
  intros Hret. rewrite run_calls_printLLVMError. unfold the_call.
  rewrite (call_returns stringCallback _ _ _ _ Hret), bind_ret_l.
  unfold emit, ITree.trigger. cbn [fst snd]. rewrite bind_vis.
  apply is_trace_Vis. rewrite bind_ret_l, bind_vis.
  apply is_trace_Vis. constructor.
Qed.

(** And after the first of them, the newline is still to come. *)
Lemma text_trace_printLLVMError (m m' : Memory) (cs : list invocation) :
  func_returns (func obj) m cs m' ->
  is_trace (run_calls _ (printLLVMError func obj message) m)
           [accumulated message cs].
Proof.
  intros Hret. rewrite run_calls_printLLVMError. unfold the_call.
  rewrite (call_returns stringCallback _ _ _ _ Hret), bind_ret_l.
  unfold emit, ITree.trigger. cbn [fst snd]. rewrite bind_vis.
  apply is_trace_Vis. constructor.
Qed.

End Program.

(** A printing function that returns at once has invoked no callback. *)
Lemma returns_Ret_inv (m m' : Memory) (cs : list invocation) :
  func_returns (Ret tt) m cs m' -> cs = [] /\ m' = m.
Proof.
  intros H. remember (Ret tt) as t eqn:Et.
  destruct H as [t m Ht | t u m cs m' Ht _ | t s k m cs m' Ht _
                | t a k m cs m' Ht _ | t a b k m cs m' Ht _];
    subst t; cbn in Ht; try discriminate.
  split; reflexivity.
Qed.

(** ** The actions of the program *)

Section Actions.

Context {printType : Type}.
Local Abbreviation progE := (callE printType stringstream +' errsE).

Lemma executes_ret_inv (t : itree progE unit) l d :
  observe t = RetF tt -> executes t l d -> l = [].
Proof.
  intros Ht H. destruct H as [t | t Hu | t u l d Hu _ | X e t k x l d Hu _];
    try reflexivity; rewrite Ht in Hu; discriminate.
Qed.

Lemma executes_vis_inv {X} (e : progE X) (k : X -> itree progE unit)
    (t : itree progE unit) l d :
  observe t = VisF e k -> executes t l d ->
  (l = [] /\ d = false)
  \/ exists x l', l = action_of e :: l' /\ executes (k x) l' d.
Proof.
  intros Ht H. destruct H as [t | t Hu | t u l d Hu _ | Y e' t k' x l d Hu H];
    try (rewrite Ht in Hu; discriminate).
  - now left.
  - right. rewrite Ht in Hu. inv_Vis. exists x, l. split; [reflexivity | exact H].
Qed.

Lemma executes_vis {X} (e : progE X) (k : X -> itree progE unit)
    (t : itree progE unit) (x : X) a l d :
  observe t = VisF e k -> a = action_of e -> executes (k x) l d ->
  executes t (a :: l) d.
Proof. intros Ht -> H. eapply exec_vis; eassumption. Qed.

Variable func : printer printType.
Variable obj : printType.
Variable message : bytes.

Lemma executes_printLLVMError l d :
  executes (printLLVMError func obj message) l d ->
  exists ss,
    l = firstn (List.length l)
          [CallOf func obj; InsertOf (str ss); InsertOf newline]
    /\ (d = true -> List.length l = 3%nat).
Proof.
  intros H.
  eapply executes_vis_inv in H; [| unfold printLLVMError; cbn; reflexivity].
  destruct H as [[-> ->] | (ss & l1 & -> & H)];
    [exists stringstream_new; split; [reflexivity | discriminate] |].
  exists ss.
  eapply executes_vis_inv in H; [| cbn; reflexivity].
  destruct H as [[-> ->] | ([] & l2 & -> & H)]; [split; [reflexivity | discriminate] |].
  eapply executes_vis_inv in H; [| cbn; reflexivity].
  destruct H as [[-> ->] | ([] & l3 & -> & H)]; [split; [reflexivity | discriminate] |].
  eapply executes_ret_inv in H; [| cbn; reflexivity]. subst l3.
  split; reflexivity.
Qed.

Lemma executes_printLLVMError_full (ss : stringstream) :
  executes (printLLVMError func obj message)
           [CallOf func obj; InsertOf (str ss); InsertOf newline] true.
Proof.
  eapply (executes_vis _ _ _ ss); [unfold printLLVMError; cbn; reflexivity | reflexivity |].
  eapply (executes_vis _ _ _ tt); [cbn; reflexivity | reflexivity |].
  eapply (executes_vis _ _ _ tt); [cbn; reflexivity | reflexivity |].
  apply exec_ret. reflexivity.
Qed.

End Actions.

(* ===================================================================== *)
(** * The properties of [printLLVMError] *)
(* ===================================================================== *)

Import Samples.

(** One step of a printing function that is given in full. *)
Ltac returns_step :=
  first [ eapply returns_ret; cbn; reflexivity
        | eapply returns_emit; [cbn; reflexivity |]
        | eapply returns_store; [cbn; reflexivity |]
        | eapply returns_load; [cbn; reflexivity |]
        | eapply returns_tau; [cbn; reflexivity |] ].

Ltac all_valid :=
  repeat constructor; unfold invocation_valid, valid_chunk, PTRDIFF_MAX; cbn; lia.

(** C1. For every message, object and printing function that invokes the
    callback on finitely many chunks, valid (pointer, length) pairs, and then
    returns, [printLLVMError] writes to the diagnostic stream exactly the
    message, then the bytes of all chunks in the order the callback received
    them, then a single newline. *)
Theorem printLLVMError_output {printType : Type}
    (func : printer printType) (obj : printType) (message : bytes)
    (st : Streams) (m m' : Memory) (cs : list invocation) :
  func_returns (func obj) m cs m' ->
  Forall invocation_valid cs ->
  run (printLLVMError func obj message) st m
  ≈ Ret ({| stdout := stdout st;
            stderr := stderr st ++ message
                        ++ concat (List.map invocation_bytes cs) ++ newline |},
         (m', tt)).
Proof.
  intros Hret Hvalid.
  rewrite (run_printLLVMError func obj message st m m' cs Hret).
  rewrite (accumulated_valid message cs Hvalid), <- app_assoc. reflexivity.
Qed.

Lemma printLLVMError_output_witness :
  func_returns (through_buffer [Byte.x61; Byte.x62; Byte.x63]) abc
               abc_through_buffer abc_buffered
  /\ Forall invocation_valid abc_through_buffer
  /\ run (printLLVMError through_buffer [Byte.x61; Byte.x62; Byte.x63] err)
         no_output abc
     ≈ Ret ({| stdout := [];
               stderr := err ++ [Byte.x61; Byte.x62; Byte.x63] ++ newline |},
            (abc_buffered, tt)).
Proof.
  assert (Hret : func_returns (through_buffer [Byte.x61; Byte.x62; Byte.x63]) abc
                   abc_through_buffer abc_buffered)
    by (unfold abc_through_buffer, abc_buffered; repeat returns_step).
  assert (Hvalid : Forall invocation_valid abc_through_buffer) by all_valid.
  split; [exact Hret | split; [exact Hvalid |]].
  exact (printLLVMError_output through_buffer [Byte.x61; Byte.x62; Byte.x63] err
           no_output abc abc_buffered abc_through_buffer Hret Hvalid).
Defined.

(** C2. For every printing function that returns without ever invoking the
    callback, what [printLLVMError] writes to the diagnostic stream is the
    message plus a newline. *)
Theorem printLLVMError_no_chunks {printType : Type}
    (func : printer printType) (obj : printType) (message : bytes)
    (st : Streams) (m m' : Memory) :
  func_returns (func obj) m [] m' ->
  run (printLLVMError func obj message) st m
  ≈ Ret ({| stdout := stdout st; stderr := stderr st ++ message ++ newline |},
         (m', tt)).
Proof.
  intros Hret.
  rewrite (run_printLLVMError func obj message st m m' [] Hret).
  reflexivity.
Qed.

Lemma printLLVMError_no_chunks_witness :
  func_returns (silent tt) abc [] abc
  /\ run (printLLVMError silent tt err) no_output abc
     ≈ Ret ({| stdout := []; stderr := err ++ newline |}, (abc, tt)).
Proof.
  assert (Hret : func_returns (silent tt) abc [] abc) by returns_step.
  split; [exact Hret |].
  exact (printLLVMError_no_chunks silent tt err no_output abc abc Hret).
Defined.

(** C3. The output does not depend on chunk boundaries: two printing
    functions whose chunks concatenate to the same bytes (as "a", "b", "c"
    and "abc" do) make [printLLVMError] write the same text, the message
    followed by these bytes and a newline. *)
Theorem printLLVMError_chunk_boundaries {printType1 printType2 : Type}
    (func1 : printer printType1) (obj1 : printType1)
    (func2 : printer printType2) (obj2 : printType2)
    (message : bytes) (st : Streams)
    (m1 m1' m2 m2' : Memory) (cs1 cs2 : list invocation) :
  func_returns (func1 obj1) m1 cs1 m1' ->
  func_returns (func2 obj2) m2 cs2 m2' ->
  Forall invocation_valid cs1 ->
  Forall invocation_valid cs2 ->
  concat (List.map invocation_bytes cs1) = concat (List.map invocation_bytes cs2) ->
  exists text,
    prints func1 obj1 message st m1 text
    /\ prints func2 obj2 message st m2 text
    /\ text = message ++ concat (List.map invocation_bytes cs1) ++ newline.
Proof.
  intros Hret1 Hret2 Hvalid1 Hvalid2 Hsame.
  exists (message ++ concat (List.map invocation_bytes cs1) ++ newline).
  split; [| split; [| reflexivity]].
  - exists m1'. rewrite (run_printLLVMError func1 obj1 message st m1 m1' cs1 Hret1).
    rewrite (accumulated_valid message cs1 Hvalid1), <- app_assoc. reflexivity.
  - exists m2'. rewrite (run_printLLVMError func2 obj2 message st m2 m2' cs2 Hret2).
    rewrite (accumulated_valid message cs2 Hvalid2), <- app_assoc, Hsame.
    reflexivity.
Qed.

Lemma printLLVMError_chunk_boundaries_witness :
  func_returns (one_by_one tt) abc abc_one_by_one abc
  /\ func_returns (at_once tt) abc abc_at_once abc
  /\ Forall invocation_valid abc_one_by_one
  /\ Forall invocation_valid abc_at_once
  /\ concat (List.map invocation_bytes abc_one_by_one)
     = concat (List.map invocation_bytes abc_at_once)
  /\ exists text,
       prints one_by_one tt err no_output abc text
       /\ prints at_once tt err no_output abc text
       /\ text = err ++ [Byte.x61; Byte.x62; Byte.x63] ++ newline.
Proof.
  assert (Hret1 : func_returns (one_by_one tt) abc abc_one_by_one abc)
    by (unfold abc_one_by_one; repeat returns_step).
  assert (Hret2 : func_returns (at_once tt) abc abc_at_once abc)
    by (unfold abc_at_once; repeat returns_step).
  assert (Hvalid1 : Forall invocation_valid abc_one_by_one) by all_valid.
  assert (Hvalid2 : Forall invocation_valid abc_at_once) by all_valid.
  assert (Hsame : concat (List.map invocation_bytes abc_one_by_one)
                  = concat (List.map invocation_bytes abc_at_once)) by reflexivity.
  repeat (split; [assumption |]).
  exact (printLLVMError_chunk_boundaries one_by_one tt at_once tt err no_output
           abc abc abc abc abc_one_by_one abc_at_once
           Hret1 Hret2 Hvalid1 Hvalid2 Hsame).
Defined.

(** C4. Every call of [printLLVMError] invokes the supplied printing
    function exactly once: a call that has returned has made exactly one
    call, of [func] on [obj]; a call still under way has made at most this
    one. *)
Theorem printLLVMError_calls_func_once {printType : Type}
    (func : printer printType) (obj : printType) (message : bytes)
    (l : list (action printType)) (done : bool) :
  executes (printLLVMError func obj message) l done ->
  (done = true -> calls l = 1%nat)
  /\ (calls l <= 1)%nat
  /\ (forall a, In a l -> is_call a = true -> a = CallOf func obj).
Proof.
  intros H. destruct (executes_printLLVMError func obj message l done H)
    as (ss & Hl & Hdone).
  destruct l as [|a1 [|a2 [|a3 [|a4 l]]]]; cbn in Hl;
    try (injection Hl as -> -> ->); try (injection Hl as -> ->);
    try (injection Hl as ->); try discriminate.
  - split; [intros Hd; specialize (Hdone Hd); discriminate |].
    split; [cbn; lia | intros a []].
  - split; [intros Hd; specialize (Hdone Hd); discriminate |].
    split; [cbn; lia |].
    intros a [<- | []] _. reflexivity.
  - split; [intros Hd; specialize (Hdone Hd); discriminate |].
    split; [cbn; lia |].
    intros a [<- | [<- | []]] Ha; [reflexivity | discriminate].
  - split; [reflexivity |]. split; [cbn; lia |].
    intros a [<- | [<- | [<- | []]]] Ha; [reflexivity | discriminate | discriminate].
Qed.

Lemma printLLVMError_calls_func_once_witness :
  executes (printLLVMError silent tt err)
           [CallOf silent tt; InsertOf err; InsertOf newline] true
  /\ calls [CallOf silent tt; InsertOf err; InsertOf newline] = 1%nat.
Proof.
  assert (H : executes (printLLVMError silent tt err)
                [CallOf silent tt; InsertOf err; InsertOf newline] true)
    by exact (executes_printLLVMError_full silent tt err (seeded err)).
  split; [exact H |].
  exact (proj1 (printLLVMError_calls_func_once silent tt err _ true H) eq_refl).
Defined.

(** C5. The callback copies a chunk by its explicit length: for a valid
    chunk of [n] bytes, exactly these [n] bytes, as memory holds them from
    the pointer on, are appended to the accumulator, whatever their values
    (NUL bytes, parts of UTF-8 sequences); there is no stop at a NUL. *)
Theorem stringCallback_copies_by_length
    (s : MlirStringRef) (ss : stringstream) (m : Memory) :
  valid_chunk s ->
  badbit ss = false ->
  str (stringCallback s ss m) = str ss ++ chunk_bytes m s
  /\ Z.of_nat (List.length (chunk_bytes m s)) = length s
  /\ (forall i, 0 <= i < length s ->
        nth (Z.to_nat i) (chunk_bytes m s) Byte.x00 = m (data s + i))
  /\ badbit (stringCallback s ss m) = false.
Proof.
  intros Hs Hgood. rewrite (stringCallback_valid s ss m Hs Hgood). cbn.
  destruct Hs as [Hlo Hhi]. unfold chunk_bytes.
  split; [reflexivity |]. split; [rewrite read_chars_length; lia |].
  split; [| reflexivity].
  intros i Hi. rewrite read_chars_nth by lia. f_equal. lia.
Qed.

Lemma stringCallback_copies_by_length_witness :
  valid_chunk (chunk 0 3)
  /\ badbit (seeded err) = false
  /\ str (stringCallback (chunk 0 3) (seeded err) with_nul)
     = err ++ [Byte.x61; Byte.x00; Byte.xc3].
Proof.
  assert (Hs : valid_chunk (chunk 0 3))
    by (unfold valid_chunk, PTRDIFF_MAX; cbn; lia).
  assert (Hgood : badbit (seeded err) = false) by reflexivity.
  split; [exact Hs | split; [exact Hgood |]].
  exact (proj1 (stringCallback_copies_by_length (chunk 0 3) (seeded err) with_nul
                  Hs Hgood)).
Defined.

(** C6, as the code has it. Every call of [printLLVMError] writes to the
    standard error stream only, and ends what it writes with the one newline
    it appends; the output has one line more than the message and the chunks
    have newline bytes, so it is exactly one line when, and only when, they
    have none. *)
Theorem printLLVMError_lines {printType : Type}
    (func : printer printType) (obj : printType) (message : bytes)
    (st : Streams) (m m' : Memory) (cs : list invocation) :
  func_returns (func obj) m cs m' ->
  Forall invocation_valid cs ->
  exists text,
    run (printLLVMError func obj message) st m
    ≈ Ret ({| stdout := stdout st; stderr := stderr st ++ text |}, (m', tt))
    /\ text = (message ++ concat (List.map invocation_bytes cs)) ++ newline
    /\ line_count text
       = S (line_count message
            + line_count (concat (List.map invocation_bytes cs)))
    /\ (line_count text = 1%nat
        <-> line_count message = 0%nat
            /\ line_count (concat (List.map invocation_bytes cs)) = 0%nat).
Proof.
  intros Hret Hvalid.
  exists ((message ++ concat (List.map invocation_bytes cs)) ++ newline).
  assert (Hcount : line_count ((message ++ concat (List.map invocation_bytes cs))
                               ++ newline)
                   = S (line_count message
                        + line_count (concat (List.map invocation_bytes cs)))).
  { rewrite !line_count_app. cbn. lia. }
  split; [| split; [reflexivity | split; [exact Hcount |]]].
  - rewrite (run_printLLVMError func obj message st m m' cs Hret).
    rewrite (accumulated_valid message cs Hvalid). reflexivity.
  - rewrite Hcount. lia.
Qed.

Lemma printLLVMError_lines_witness :
  func_returns (one_by_one tt) abc abc_one_by_one abc
  /\ Forall invocation_valid abc_one_by_one
  /\ exists text,
       run (printLLVMError one_by_one tt err) no_output abc
       ≈ Ret ({| stdout := []; stderr := text |}, (abc, tt))
       /\ text = err ++ [Byte.x61; Byte.x62; Byte.x63; Byte.x0a]
       /\ line_count text = 1%nat.
Proof.
  assert (Hret : func_returns (one_by_one tt) abc abc_one_by_one abc)
    by (unfold abc_one_by_one; repeat returns_step).
  assert (Hvalid : Forall invocation_valid abc_one_by_one) by all_valid.
  split; [exact Hret | split; [exact Hvalid |]].
  destruct (printLLVMError_lines one_by_one tt err no_output abc abc
              abc_one_by_one Hret Hvalid) as (text & Hrun & Htext & Hcount & _).
  exists text. split; [exact Hrun | split; [exact Htext |]].
  rewrite Hcount. reflexivity.
Defined.

(** C6, as the claim states it, fails: a message of two lines and a printing
    function that emits nothing give two lines of output. *)
Lemma one_line_per_call_counterexample :
  prints silent tt two_lines no_output abc
         [Byte.x61; Byte.x0a; Byte.x62; Byte.x0a]
  /\ line_count [Byte.x61; Byte.x0a; Byte.x62; Byte.x0a] = 2%nat
  /\ ~ (forall text,
          prints silent tt two_lines no_output abc text ->
          line_count text = 1%nat).
Proof.
  assert (Hprints : prints silent tt two_lines no_output abc
                           [Byte.x61; Byte.x0a; Byte.x62; Byte.x0a]).
  { apply (prints_accumulated silent tt two_lines no_output abc abc []).
    returns_step. }
  split; [exact Hprints | split; [reflexivity |]].
  intros Hone. specialize (Hone _ Hprints). discriminate Hone.
Qed.

(** *** The call in the process *)

Section FrameFacts.

Context {printType : Type}.
Local Abbreviation progE := (Frame.callE printType +' Frame.cppE).

Lemma stream_at_top (m : Memory) (below : list Frame.object) (ss : stringstream)
    (ot et : bytes) (ub : bool) :
  Frame.stream_at (Frame.mkWorld m (below ++ [Frame.Stringstream ss]) ot et ub)
                  (List.length below)
  = Some ss.
Proof.
  unfold Frame.stream_at. cbn [Frame.stack].
  rewrite nth_error_app2, Nat.sub_diag by lia. reflexivity.
Qed.

Lemma set_object_top (below : list Frame.object) (o o' : Frame.object) :
  Frame.set_object (below ++ [o]) (List.length below) o' = below ++ [o'].
Proof. induction below as [|x below IH]; cbn; [reflexivity | now rewrite IH]. Qed.

(** One event of the function itself. *)
Lemma run_own {X R} (e : Frame.cppE X) (k : X -> itree progE R) (w : Frame.World) :
  Frame.run (ITree.bind (Vis (inr1 e) (fun x => Ret x)) k) w
  ≈ Frame.run (k (snd (Frame.step_cpp e w))) (fst (Frame.step_cpp e w)).
Proof.
  unfold Frame.run. rewrite bind_vis, interp_vis. cbn.
  unfold Frame.handle_own. rewrite bind_trigger, interp_state_vis. cbn.
  unfold Frame.handle_cpp. rewrite bind_ret_l, tau_eutt, interp_state_tau, tau_eutt.
  rewrite bind_ret_l. reflexivity.
Qed.

Lemma run_ret (w : Frame.World) :
  Frame.run (Ret tt : itree progE unit) w ≈ Ret (w, tt).
Proof. unfold Frame.run. rewrite interp_ret, interp_state_ret. reflexivity. Qed.

(** The call of a printing function that returns: the callbacks run on the
    accumulator that the user data points to, memory becomes what the
    function leaves, and nothing else changes. *)
Lemma frame_call_returns (t : itree printE unit) (m m' : Memory)
    (cs : list invocation) :
  func_returns t m cs m' ->
  forall (below : list Frame.object) (ss : stringstream) (ot et : bytes) (ub : bool),
    interp_state Frame.handle_cpp
      (interp (Frame.handle_print Frame.stringCallback (List.length below)) t)
      (Frame.mkWorld m (below ++ [Frame.Stringstream ss]) ot et ub)
    ≈ Ret (Frame.mkWorld m'
             (below ++ [Frame.Stringstream (run_callbacks stringCallback cs ss)])
             ot et ub, tt).
Proof.
  induction 1 as [t m Ht | t u m cs m' Ht _ IH | t s k m cs m' Ht _ IH
                 | t a k m cs m' Ht _ IH | t a b k m cs m' Ht _ IH];
    intros below ss ot et ub; rewrite (itree_eta t), Ht.
  - rewrite interp_ret, interp_state_ret. reflexivity.
  - rewrite interp_tau, interp_state_tau, tau_eutt. apply IH.
  - rewrite interp_vis. cbn [Frame.handle_print].
    unfold Frame.stringCallback. rewrite bind_trigger, interp_state_vis.
    unfold Frame.handle_cpp at 1. rewrite bind_ret_l, tau_eutt.
    rewrite interp_state_tau, tau_eutt.
    cbn [Frame.step_cpp]. rewrite stream_at_top. cbn [fst snd].
    unfold Frame.with_stack. cbn [Frame.memory Frame.stack Frame.outs_text
                                   Frame.errs_text Frame.undefined].
    rewrite set_object_top. apply IH.
  - rewrite interp_vis. cbn [Frame.handle_print].
    rewrite bind_trigger, interp_state_vis.
    unfold Frame.handle_cpp at 1. rewrite bind_ret_l, tau_eutt.
    rewrite interp_state_tau, tau_eutt. cbn. apply IH.
  - rewrite interp_vis. cbn [Frame.handle_print].
    rewrite bind_trigger, interp_state_vis.
    unfold Frame.handle_cpp at 1. rewrite bind_ret_l, tau_eutt.
    rewrite interp_state_tau, tau_eutt. cbn. apply IH.
Qed.

(** The call, as the function makes it. *)
Lemma run_call {R} (func : printer printType) (obj : printType)
    (callback : Frame.MlirStringCallback) (ud : Frame.objptr)
    (k : unit -> itree progE R) (w : Frame.World) :
  Frame.run (ITree.bind (Vis (inl1 (Frame.Call func obj callback ud))
                             (fun x => Ret x)) k) w
  ≈ ITree.bind
      (interp_state Frame.handle_cpp
         (interp (Frame.handle_print callback ud) (func obj)) w)
      (fun r => Frame.run (k tt) (fst r)).
Proof.
  unfold Frame.run. rewrite bind_vis, interp_vis. cbn [case_ Case_sum1 case_sum1].
  unfold Frame.handle_call at 2. rewrite interp_state_bind.
  eapply eutt_clo_bind; [reflexivity |].
  intros [w1 []] ? <-. cbn [fst snd].
  rewrite interp_state_tau, tau_eutt, bind_ret_l. reflexivity.
Qed.

Lemma run_own_last {X} (e : Frame.cppE X) (w : Frame.World) :
  Frame.run (Vis (inr1 e) (fun x => Ret x) : itree progE X) w
  ≈ Ret (Frame.step_cpp e w).
Proof.
  unfold Frame.run. rewrite interp_vis. cbn.
  unfold Frame.handle_own. rewrite bind_trigger, interp_state_vis. cbn.
  unfold Frame.handle_cpp. rewrite bind_ret_l, tau_eutt, interp_state_tau, tau_eutt.
  rewrite interp_ret, interp_state_ret. destruct (Frame.step_cpp e w). reflexivity.
Qed.

End FrameFacts.

(** C7. [printLLVMError] returns no value, and its only visible effect is
    what it adds to [llvm::errs()]: it leaves [llvm::outs()] as it was; it
    leaves the stack as it was, its accumulator gone again and every other
    object (the caller's message, other streams) untouched; it makes no use
    of a bad pointer; and it leaves every byte of memory, those of the
    printed object among them, as the printing function itself leaves them,
    since the callback stores nothing. *)
Theorem printLLVMError_frame {printType : Type}
    (func : printer printType) (obj : printType) (message : bytes)
    (w : Frame.World) (m' : Memory) (cs : list invocation) :
  func_returns (func obj) (Frame.memory w) cs m' ->
  Frame.run (Frame.printLLVMError func obj message) w
  ≈ Ret ({| Frame.memory := m';
            Frame.stack := Frame.stack w;
            Frame.outs_text := Frame.outs_text w;
            Frame.errs_text := Frame.errs_text w
                                 ++ accumulated message cs ++ newline;
            Frame.undefined := Frame.undefined w |},
         tt).
Proof.
  destruct w as [m st ot et ub]. cbn [Frame.memory Frame.stack Frame.outs_text
                                        Frame.errs_text Frame.undefined].
  intros Hret. unfold Frame.printLLVMError. expose_vis.
  rewrite run_own. cbn [Frame.step_cpp fst snd]. unfold Frame.with_stack at 1.
  cbn [Frame.memory Frame.stack Frame.outs_text Frame.errs_text Frame.undefined].
  rewrite run_own. cbn [Frame.step_cpp]. rewrite stream_at_top. cbn [fst snd].
  unfold Frame.with_stack at 1.
  cbn [Frame.memory Frame.stack Frame.outs_text Frame.errs_text Frame.undefined].
  rewrite set_object_top.
  rewrite run_call, (frame_call_returns _ _ _ _ Hret), bind_ret_l. cbn [fst snd].
  rewrite run_own. cbn [Frame.step_cpp]. rewrite stream_at_top. cbn [fst snd].
  rewrite run_own. cbn [Frame.step_cpp Frame.insert_into fst snd].
  cbn [Frame.memory Frame.stack Frame.outs_text Frame.errs_text Frame.undefined].
  rewrite run_own. cbn [Frame.step_cpp Frame.insert_into fst snd].
  cbn [Frame.memory Frame.stack Frame.outs_text Frame.errs_text Frame.undefined].
  rewrite run_own_last. cbn [Frame.step_cpp]. rewrite stream_at_top.
  cbn [Frame.stack]. rewrite length_app, Nat.add_comm. cbn [List.length Nat.add].
  rewrite Nat.eqb_refl. unfold Frame.with_stack.
  cbn [Frame.memory Frame.stack Frame.outs_text Frame.errs_text Frame.undefined].
  rewrite removelast_last, <- app_assoc. reflexivity.
Qed.


Lemma printLLVMError_frame_witness :
  func_returns (through_buffer [Byte.x61; Byte.x62; Byte.x63]) (Frame.memory busy)
               abc_through_buffer abc_buffered
  /\ Frame.run (Frame.printLLVMError through_buffer [Byte.x61; Byte.x62; Byte.x63] err)
               busy
     ≈ Ret ({| Frame.memory := abc_buffered;
               Frame.stack := Frame.stack busy;
               Frame.outs_text := [Byte.x61];
               Frame.errs_text := err ++ [Byte.x61; Byte.x62; Byte.x63; Byte.x0a];
               Frame.undefined := false |},
            tt).
Proof.
  assert (Hret : func_returns (through_buffer [Byte.x61; Byte.x62; Byte.x63])
                   (Frame.memory busy) abc_through_buffer abc_buffered)
    by (unfold abc_through_buffer, abc_buffered; repeat returns_step).
  split; [exact Hret |].
  exact (printLLVMError_frame through_buffer [Byte.x61; Byte.x62; Byte.x63] err
           busy abc_buffered abc_through_buffer Hret).
Defined.

(** C8. If the printing function terminates (it invokes the callback
    finitely many times and returns), so does [printLLVMError]: after
    finitely many steps the run has returned. *)
Theorem printLLVMError_terminates {printType : Type}
    (func : printer printType) (obj : printType) (message : bytes)
    (st : Streams) (m m' : Memory) (cs : list invocation) :
  func_returns (func obj) m cs m' ->
  exists n st',
    steps n (run (printLLVMError func obj message) st m) = Some (st', (m', tt)).
Proof.
  intros Hret.
  destruct (returns_steps _ _ (run_printLLVMError func obj message st m m' cs Hret))
    as [n Hn].
  exists n. eexists. exact Hn.
Qed.

Lemma printLLVMError_terminates_witness :
  func_returns (one_by_one tt) abc abc_one_by_one abc
  /\ exists n st',
       steps n (run (printLLVMError one_by_one tt err) no_output abc)
       = Some (st', (abc, tt)).
Proof.
  assert (Hret : func_returns (one_by_one tt) abc abc_one_by_one abc)
    by (unfold abc_one_by_one; repeat returns_step).
  split; [exact Hret |].
  exact (printLLVMError_terminates one_by_one tt err no_output abc abc
           abc_one_by_one Hret).
Defined.

(** C9. [printLLVMError] is deterministic in its inputs: two calls with the
    same message, whose printing functions emit the same sequence of chunk
    byte strings, write the same text, byte for byte. *)
Theorem printLLVMError_deterministic {printType1 printType2 : Type}
    (func1 : printer printType1) (obj1 : printType1)
    (func2 : printer printType2) (obj2 : printType2)
    (message : bytes) (st1 st2 : Streams)
    (m1 m1' m2 m2' : Memory) (cs1 cs2 : list invocation) :
  func_returns (func1 obj1) m1 cs1 m1' ->
  func_returns (func2 obj2) m2 cs2 m2' ->
  Forall invocation_sized cs1 ->
  Forall invocation_sized cs2 ->
  List.map invocation_bytes cs1 = List.map invocation_bytes cs2 ->
  exists text,
    prints func1 obj1 message st1 m1 text
    /\ prints func2 obj2 message st2 m2 text
    /\ (forall text', prints func1 obj1 message st1 m1 text' -> text' = text)
    /\ (forall text', prints func2 obj2 message st2 m2 text' -> text' = text).
Proof.
  intros Hret1 Hret2 Hsized1 Hsized2 Hsame.
  pose proof (prints_accumulated func1 obj1 message st1 m1 m1' cs1 Hret1) as H1.
  pose proof (prints_accumulated func2 obj2 message st2 m2 m2' cs2 Hret2) as H2.
  assert (Hacc : accumulated message cs1 = accumulated message cs2).
  { unfold accumulated.
    now rewrite (run_callbacks_bytes cs1 cs2 (seeded message) Hsized1 Hsized2 Hsame). }
  rewrite <- Hacc in H2.
  exists (accumulated message cs1 ++ newline).
  split; [exact H1 | split; [exact H2 | split]]; intros text' H'.
  - exact (prints_functional func1 obj1 message st1 m1 _ _ H' H1).
  - exact (prints_functional func2 obj2 message st2 m2 _ _ H' H2).
Qed.

Lemma printLLVMError_deterministic_witness :
  func_returns (through_buffer [Byte.x61; Byte.x62; Byte.x63]) abc
               abc_through_buffer abc_buffered
  /\ func_returns (one_by_one tt) abc abc_one_by_one abc
  /\ Forall invocation_sized abc_through_buffer
  /\ Forall invocation_sized abc_one_by_one
  /\ List.map invocation_bytes abc_through_buffer
     = List.map invocation_bytes abc_one_by_one
  /\ exists text,
       prints through_buffer [Byte.x61; Byte.x62; Byte.x63] err no_output abc text
       /\ prints one_by_one tt err no_output abc text.
Proof.
  assert (Hret1 : func_returns (through_buffer [Byte.x61; Byte.x62; Byte.x63]) abc
                    abc_through_buffer abc_buffered)
    by (unfold abc_through_buffer, abc_buffered; repeat returns_step).
  assert (Hret2 : func_returns (one_by_one tt) abc abc_one_by_one abc)
    by (unfold abc_one_by_one; repeat returns_step).
  assert (Hsized1 : Forall invocation_sized abc_through_buffer)
    by (repeat constructor; unfold invocation_sized, SIZE_MAX; cbn; lia).
  assert (Hsized2 : Forall invocation_sized abc_one_by_one)
    by (repeat constructor; unfold invocation_sized, SIZE_MAX; cbn; lia).
  assert (Hsame : List.map invocation_bytes abc_through_buffer
                  = List.map invocation_bytes abc_one_by_one) by reflexivity.
  repeat (split; [assumption |]).
  destruct (printLLVMError_deterministic
              through_buffer [Byte.x61; Byte.x62; Byte.x63] one_by_one tt
              err no_output no_output abc abc_buffered abc abc
              abc_through_buffer abc_one_by_one
              Hret1 Hret2 Hsized1 Hsized2 Hsame) as (text & H1 & H2 & _).
  exists text. split; assumption.
Defined.

(** C10, as the code has it. Nothing reaches the diagnostic stream before
    the printing function has returned: at any moment of a call, either
    nothing has been inserted, or the function has returned and what has been
    inserted is the whole accumulated text (message and chunks, buffered
    until then) in one insertion, with or without the newline, which is a
    second insertion right after it. And a printing function that returns
    makes both insertions happen. *)
Theorem printLLVMError_emits_after_return {printType : Type}
    (func : printer printType) (obj : printType) (message : bytes) (m : Memory) :
  (forall l,
     is_trace (run_calls _ (printLLVMError func obj message) m) l ->
     l = [] \/
     exists cs m',
       func_returns (func obj) m cs m'
       /\ (l = [accumulated message cs] \/ l = [accumulated message cs; newline]))
  /\ (forall cs m',
        func_returns (func obj) m cs m' ->
        is_trace (run_calls _ (printLLVMError func obj message) m)
                 [accumulated message cs]
        /\ is_trace (run_calls _ (printLLVMError func obj message) m)
                    [accumulated message cs; newline]).
Proof.
  split.
  - intros l. exact (traces_printLLVMError func obj message m l).
  - intros cs m' Hret. split.
    + exact (text_trace_printLLVMError func obj message m m' cs Hret).
    + exact (full_trace_printLLVMError func obj message m m' cs Hret).
Qed.

Lemma printLLVMError_emits_after_return_witness :
  func_returns (one_by_one tt) abc abc_one_by_one abc
  /\ is_trace (run_calls _ (printLLVMError one_by_one tt err) abc)
              [err ++ [Byte.x61; Byte.x62; Byte.x63]; newline]
  /\ exists cs m',
       func_returns (one_by_one tt) abc cs m'
       /\ err ++ [Byte.x61; Byte.x62; Byte.x63] = accumulated err cs.
Proof.
  assert (Hret : func_returns (one_by_one tt) abc abc_one_by_one abc)
    by (unfold abc_one_by_one; repeat returns_step).
  destruct (printLLVMError_emits_after_return one_by_one tt err abc)
    as [Hsafe Hlive].
  assert (Htrace : is_trace (run_calls _ (printLLVMError one_by_one tt err) abc)
                            [err ++ [Byte.x61; Byte.x62; Byte.x63]; newline])
    by exact (proj2 (Hlive abc_one_by_one abc Hret)).
  split; [exact Hret | split; [exact Htrace |]].
  destruct (Hsafe _ Htrace)
    as [Hnil | (cs & m' & Hcs & [Hl | Hl])]; [discriminate | discriminate |].
  exists cs, m'. split; [exact Hcs |]. now injection Hl.
Defined.

(** C10, as the claim states it, fails: the text and its newline do not
    leave in one flush. With the message "err: " and a printing function that
    emits nothing, there is a moment when the message has been inserted and
    the newline has not, and the message with its newline is never one
    insertion. *)
Lemma single_flush_counterexample :
  is_trace (run_calls _ (printLLVMError silent tt err) abc) [err]
  /\ ~ is_trace (run_calls _ (printLLVMError silent tt err) abc) [err ++ newline].
Proof.
  split.
  - apply (text_trace_printLLVMError silent tt err abc abc []). returns_step.
  - intros Hl. apply traces_printLLVMError in Hl.
    destruct Hl as [Hnil | (cs & m' & Hret & Hl)]; [discriminate |].
    apply returns_Ret_inv in Hret. destruct Hret as [-> _].
    destruct Hl as [Hl | Hl]; discriminate Hl.
Qed.

(* ===================================================================== *)
(** * The model at work *)
(* ===================================================================== *)

(** The run of a call is a computation: cut after enough steps, it gives
    the streams. *)
Example run_one_by_one :
  option_map (fun r => stderr (fst r))
             (steps 64 (run (printLLVMError one_by_one tt err) no_output abc))
  = Some (err ++ [Byte.x61; Byte.x62; Byte.x63; Byte.x0a]).
Proof. vm_compute. reflexivity. Qed.

Example run_with_nul :
  option_map (fun r => stderr (fst r))
             (steps 64 (run (printLLVMError at_once tt []) no_output with_nul))
  = Some [Byte.x61; Byte.x00; Byte.xc3; Byte.x0a].
Proof. vm_compute. reflexivity. Qed.

(** A chunk whose length does not fit [std::streamsize] is not a valid
    (pointer, length) pair: [write] receives a negative count, inserts
    nothing and leaves the stream bad, and later chunks are lost. *)
Example oversized_chunk :
  str (run_callbacks stringCallback
         [(chunk 0 (2 ^ 63), abc); (chunk 0 3, abc)] (seeded err))
  = err.
Proof. vm_compute. reflexivity. Qed.

(** A printing function that never returns: the call never returns, and
    nothing is ever inserted. *)
Lemma stuck_never_returns (m m' : Memory) (cs : list invocation) :
  ~ func_returns (stuck tt) m cs m'.
Proof.
  intros H. remember (stuck tt) as t eqn:Et.
  induction H as [t m Ht | t u m cs m' Ht _ IH | t s k m cs m' Ht _ _
                 | t a k m cs m' Ht _ _ | t a b k m cs m' Ht _ _];
    subst t; cbn in Ht; try discriminate.
  injection Ht as <-. apply IH. reflexivity.
Qed.

Example stuck_is_silent (l : list bytes) :
  is_trace (run_calls _ (printLLVMError stuck tt err) abc) l -> l = [].
Proof.
  intros Hl. apply traces_printLLVMError in Hl.
  destruct Hl as [-> | (cs & m' & Hret & _)]; [reflexivity |].
  now apply stuck_never_returns in Hret.
Qed.

Example stuck_steps :
  steps 1000 (run (printLLVMError stuck tt err) no_output abc) = None.
Proof. vm_compute. reflexivity. Qed.

(** In the process, the call leaves [llvm::outs()] alone. *)
Example frame_run :
  option_map (fun r => (Frame.outs_text (fst r), Frame.errs_text (fst r),
                        Frame.undefined (fst r)))
             (steps 64 (Frame.run (Frame.printLLVMError one_by_one tt err) busy))
  = Some ([Byte.x61], err ++ [Byte.x61; Byte.x62; Byte.x63; Byte.x0a], false).
Proof. vm_compute. reflexivity. Qed.

(** That is the doing of [stringCallback]: a printing function run against
    a callback that also reports on [llvm::outs()] leaves its marks there. *)
Example echo_changes_outs :
  option_map (fun r => Frame.outs_text (fst r))
             (steps 64 (interp_state Frame.handle_cpp
                          (interp (Frame.handle_print Frame.echoCallback 1%nat)
                                  (one_by_one tt))
                          busy))
  = Some [Byte.x61; Byte.x0a; Byte.x0a; Byte.x0a].
Proof. vm_compute. reflexivity. Qed.

(** And of the pointer that is passed: with user data that points to the
    caller's string instead of a stream, the cast in the callback is
    undefined. *)
Example stray_user_data :
  option_map (fun r => Frame.undefined (fst r))
             (steps 64 (interp_state Frame.handle_cpp
                          (interp (Frame.handle_print Frame.stringCallback 0%nat)
                                  (one_by_one tt))
                          busy))
  = Some true.
Proof. vm_compute. reflexivity. Qed.

(* ===================================================================== *)
(** * Further properties of the accumulator and of the call *)
(* ===================================================================== *)

(** ** Reading chars *)

Lemma read_chars_app (m : Memory) (n1 n2 : nat) :
  forall p,
    read_chars m p (n1 + n2)
    = read_chars m p n1 ++ read_chars m (p + Z.of_nat n1) n2.
Proof.
  induction n1 as [|n1 IH]; intros p.
  - cbn. now rewrite Z.add_0_r.
  - cbn [Nat.add read_chars app]. rewrite IH. do 3 f_equal. lia.
Qed.

Lemma read_chars_ext (m1 m2 : Memory) (n : nat) :
  forall p,
    (forall i, 0 <= i < Z.of_nat n -> m1 (p + i) = m2 (p + i)) ->
    read_chars m1 p n = read_chars m2 p n.
Proof.
  induction n as [|n IH]; intros p Hagree; [reflexivity |].
  cbn [read_chars]. f_equal.
  - specialize (Hagree 0). rewrite Z.add_0_r in Hagree. apply Hagree. lia.
  - apply IH. intros i Hi. replace (p + 1 + i) with (p + (1 + i)) by lia.
    apply Hagree. lia.
Qed.

Lemma streamsize_of_oversized (n : Z) :
  PTRDIFF_MAX < n <= SIZE_MAX -> streamsize_of_size_t n < 0.
Proof.
  unfold streamsize_of_size_t, PTRDIFF_MAX, SIZE_MAX. intros Hn.
  rewrite Z.mod_small by lia.
  destruct (n <? 2 ^ 63) eqn:E; [apply Z.ltb_lt in E; lia | lia].
Qed.

Lemma run_callbacks_app {UD} (callback : MlirStringCallback UD)
    (cs1 cs2 : list invocation) (ud : UD) :
  run_callbacks callback (cs1 ++ cs2) ud
  = run_callbacks callback cs2 (run_callbacks callback cs1 ud).
Proof. apply fold_left_app. Qed.

Lemma run_callbacks_cons {UD} (callback : MlirStringCallback UD)
    (c : invocation) (cs : list invocation) (ud : UD) :
  run_callbacks callback (c :: cs) ud
  = run_callbacks callback cs (callback (fst c) ud (snd c)).
Proof. reflexivity. Qed.

(** A stream that has gone bad stays as it is. *)
Lemma run_callbacks_bad (cs : list invocation) :
  forall ss, badbit ss = true -> run_callbacks stringCallback cs ss = ss.
Proof.
  induction cs as [|c cs IH]; intros ss Hbad; [reflexivity |].
  cbn. unfold stringCallback at 2, ostream_write. rewrite Hbad. now apply IH.
Qed.

Lemma stringCallback_extends (s : MlirStringRef) (ss : stringstream) (m : Memory) :
  exists suffix, buffer (stringCallback s ss m) = buffer ss ++ suffix.
Proof.
  unfold stringCallback, ostream_write.
  destruct (badbit ss); [exists []; now rewrite app_nil_r |].
  destruct (_ <? 0); cbn; [exists []; now rewrite app_nil_r | eexists; reflexivity].
Qed.

Lemma run_callbacks_extends (cs : list invocation) :
  forall ss, exists suffix,
    buffer (run_callbacks stringCallback cs ss) = buffer ss ++ suffix.
Proof.
  induction cs as [|c cs IH]; intros ss; [exists []; now rewrite app_nil_r |].
  cbn. destruct (IH (stringCallback (fst c) ss (snd c))) as [suf2 H2].
  destruct (stringCallback_extends (fst c) ss (snd c)) as [suf1 H1].
  exists (suf1 ++ suf2). unfold run_callbacks in H2. rewrite H2, H1.
  now rewrite app_assoc.
Qed.

(** X4. The accumulator only grows: what more callbacks accumulate extends what
    was accumulated before them; no callback, valid or not, drops or rewrites
    a char. *)
Theorem accumulated_append_only (message : bytes) (cs1 cs2 : list invocation) :
  exists suffix,
    accumulated message (cs1 ++ cs2) = accumulated message cs1 ++ suffix.
Proof.
  unfold accumulated, str. rewrite run_callbacks_app.
  apply run_callbacks_extends.
Qed.

Lemma stringCallback_empty (s : MlirStringRef) (ss : stringstream) (m : Memory) :
  length s = 0 -> stringCallback s ss m = ss.
Proof.
  intros Hlen. unfold stringCallback, ostream_write. rewrite Hlen. cbn.
  destruct ss as [buf bad]. cbn. destruct bad; [reflexivity | now rewrite app_nil_r].
Qed.

(** X5. An empty chunk changes nothing, wherever it comes among the others and
    whatever its pointer is: the pointer is not read. *)
Theorem accumulated_empty_chunk (message : bytes)
    (cs1 cs2 : list invocation) (s : MlirStringRef) (m : Memory) :
  length s = 0 ->
  accumulated message (cs1 ++ (s, m) :: cs2) = accumulated message (cs1 ++ cs2).
Proof.
  intros Hlen. unfold accumulated. rewrite !run_callbacks_app. cbn.
  now rewrite (stringCallback_empty s _ m Hlen).
Qed.

Lemma accumulated_empty_chunk_witness :
  length (chunk 7 0) = 0
  /\ accumulated err ([(chunk 0 1, abc)] ++ (chunk 7 0, abc) :: [(chunk 1 2, abc)])
     = accumulated err ([(chunk 0 1, abc)] ++ [(chunk 1 2, abc)]).
Proof.
  split; [reflexivity |].
  exact (accumulated_empty_chunk err [(chunk 0 1, abc)] [(chunk 1 2, abc)]
           (chunk 7 0) abc eq_refl).
Defined.

(** X6. A chunk whose length does not fit [std::streamsize] ends the
    accumulation: it adds nothing itself, and every later chunk is lost.
    What is accumulated is the message and the valid chunks before it. *)
Theorem accumulated_oversized_chunk (message : bytes)
    (cs1 cs2 : list invocation) (s : MlirStringRef) (m : Memory) :
  Forall invocation_valid cs1 ->
  PTRDIFF_MAX < length s <= SIZE_MAX ->
  accumulated message (cs1 ++ (s, m) :: cs2)
  = message ++ concat (List.map invocation_bytes cs1).
Proof.
  intros Hvalid Hbig. unfold accumulated.
  rewrite run_callbacks_app, run_callbacks_cons. cbn [fst snd].
  rewrite (run_callbacks_valid cs1 Hvalid) by reflexivity.
  assert (Hbad : stringCallback s
                   {| buffer := buffer (seeded message)
                                ++ concat (List.map invocation_bytes cs1);
                      badbit := false |} m
                 = {| buffer := buffer (seeded message)
                                ++ concat (List.map invocation_bytes cs1);
                      badbit := true |}).
  { unfold stringCallback, ostream_write. cbn [badbit buffer].
    pose proof (streamsize_of_oversized _ Hbig) as Hneg.
    apply Z.ltb_lt in Hneg. now rewrite Hneg. }
  rewrite Hbad, run_callbacks_bad by reflexivity. reflexivity.
Qed.

Lemma accumulated_oversized_chunk_witness :
  Forall invocation_valid [(chunk 0 1, abc)]
  /\ PTRDIFF_MAX < length (chunk 1 (2 ^ 63)) <= SIZE_MAX
  /\ accumulated err ([(chunk 0 1, abc)] ++ (chunk 1 (2 ^ 63), abc) :: [(chunk 1 2, abc)])
     = err ++ [Byte.x61].
Proof.
  assert (Hvalid : Forall invocation_valid [(chunk 0 1, abc)]) by all_valid.
  assert (Hbig : PTRDIFF_MAX < length (chunk 1 (2 ^ 63)) <= SIZE_MAX)
    by (unfold PTRDIFF_MAX, SIZE_MAX; cbn; lia).
  split; [exact Hvalid | split; [exact Hbig |]].
  exact (accumulated_oversized_chunk err [(chunk 0 1, abc)] [(chunk 1 2, abc)]
           (chunk 1 (2 ^ 63)) abc Hvalid Hbig).
Defined.

(** X7. The callback reads memory only within the chunk: two memories that agree
    on the [length] chars from [data] on give the same accumulator. *)
Theorem stringCallback_reads_chunk_only
    (s : MlirStringRef) (ss : stringstream) (m1 m2 : Memory) :
  0 <= length s <= SIZE_MAX ->
  (forall i, 0 <= i < length s -> m1 (data s + i) = m2 (data s + i)) ->
  stringCallback s ss m1 = stringCallback s ss m2.
Proof.
  unfold SIZE_MAX. intros Hsized Hagree.
  unfold stringCallback, ostream_write.
  destruct (badbit ss); [reflexivity |].
  destruct (streamsize_of_size_t (length s) <? 0) eqn:E; [reflexivity |].
  apply Z.ltb_ge in E.
  assert (Hn : streamsize_of_size_t (length s) = length s).
  { revert E. unfold streamsize_of_size_t. rewrite Z.mod_small by lia.
    destruct (length s <? 2 ^ 63); lia. }
  rewrite Hn. f_equal. f_equal. apply read_chars_ext.
  intros i Hi. apply Hagree. lia.
Qed.

Lemma stringCallback_reads_chunk_only_witness :
  0 <= length (chunk 0 1) <= SIZE_MAX
  /\ (forall i, 0 <= i < length (chunk 0 1) ->
        abc (data (chunk 0 1) + i) = with_nul (data (chunk 0 1) + i))
  /\ stringCallback (chunk 0 1) (seeded err) abc
     = stringCallback (chunk 0 1) (seeded err) with_nul.
Proof.
  assert (Hsized : 0 <= length (chunk 0 1) <= SIZE_MAX)
    by (unfold SIZE_MAX; cbn; lia).
  assert (Hagree : forall i, 0 <= i < length (chunk 0 1) ->
            abc (data (chunk 0 1) + i) = with_nul (data (chunk 0 1) + i)).
  { cbn. intros i Hi. assert (i = 0) as -> by lia. reflexivity. }
  split; [exact Hsized | split; [exact Hagree |]].
  exact (stringCallback_reads_chunk_only (chunk 0 1) (seeded err) abc with_nul
           Hsized Hagree).
Defined.

(** X8. Writing a chunk in two parts is writing it whole: the callback on the
    first [n1] chars and then on the [n2] chars after them leaves the
    accumulator as the callback on all [n1 + n2] chars does. *)
Theorem stringCallback_split
    (p : addr) (n1 n2 : Z) (ss : stringstream) (m : Memory) :
  0 <= n1 -> 0 <= n2 -> n1 + n2 <= PTRDIFF_MAX ->
  stringCallback {| data := p + n1; length := n2 |}
    (stringCallback {| data := p; length := n1 |} ss m) m
  = stringCallback {| data := p; length := n1 + n2 |} ss m.
Proof.
  intros H1 H2 Hsum.
  destruct (badbit ss) eqn:Hgood.
  - unfold stringCallback, ostream_write. cbn. now rewrite !Hgood.
  - assert (Hv1 : valid_chunk {| data := p; length := n1 |})
      by (unfold valid_chunk; cbn [length]; lia).
    assert (Hv2 : valid_chunk {| data := p + n1; length := n2 |})
      by (unfold valid_chunk; cbn [length]; lia).
    assert (Hv : valid_chunk {| data := p; length := n1 + n2 |})
      by (unfold valid_chunk; cbn [length]; lia).
    rewrite (stringCallback_valid _ ss m Hv1 Hgood).
    rewrite (stringCallback_valid _ {| buffer := _; badbit := false |} m Hv2 eq_refl).
    rewrite (stringCallback_valid _ ss m Hv Hgood).
    unfold chunk_bytes. cbn [data length buffer].
    rewrite Z2Nat.inj_add, read_chars_app, Z2Nat.id by lia.
    now rewrite app_assoc.
Qed.

Lemma stringCallback_split_witness :
  0 <= 1 /\ 0 <= 2 /\ 1 + 2 <= PTRDIFF_MAX
  /\ stringCallback (chunk (0 + 1) 2) (stringCallback (chunk 0 1) (seeded err) abc) abc
     = stringCallback (chunk 0 (1 + 2)) (seeded err) abc.
Proof.
  assert (H1 : 0 <= 1) by lia.
  assert (H2 : 0 <= 2) by lia.
  assert (Hsum : 1 + 2 <= PTRDIFF_MAX) by (unfold PTRDIFF_MAX; lia).
  repeat (split; [assumption |]).
  exact (stringCallback_split 0 1 2 (seeded err) abc H1 H2 Hsum).
Defined.

(** ** The run, read backwards *)

(** Interpreting the insertions of a tree that makes none leaves the streams
    as they are. *)
Lemma leaf_interp_errs_silent {R} (x : Streams * R) (u : itree void1 (Streams * R)) :
  Leaf x u ->
  forall (t : itree errsE R) (st : Streams),
    (forall l, is_trace t l -> l = []) ->
    u ≅ interp_state handle_errs t st ->
    fst x = st /\ Leaf (snd x) t.
Proof.
  induction 1 as [u Hu | u u' Hu _ IH | X e u k y Hu _ _]; intros t st Hsilent Heq;
    [| | destruct e];
    rewrite unfold_interp_state in Heq; apply eqit_inv in Heq;
    unfold observe in Hu; rewrite Hu in Heq; clear Hu;
    destruct (observe t) as [r | t' | Y e' k'] eqn:Ht; cbn in Heq;
    try contradiction; try (destruct e'; cbn in Heq; contradiction).
  - subst x. split; [reflexivity | apply LeafRet; exact Ht].
  - destruct (IH t' st) as [Hst Hleaf]; [| exact Heq |].
    + intros l Hl. apply Hsilent. eapply trace_tau; eassumption.
    + split; [exact Hst | eapply LeafTau; eassumption].
  - exfalso. destruct e' as [s].
    assert (Hbad : is_trace t [s]) by (eapply trace_insert; [exact Ht | constructor]).
    apply Hsilent in Hbad. discriminate.
Qed.

Lemma run_emit (r : stringstream * Memory * unit) (st : Streams) :
  interp_state handle_errs (emit r) st
  ≈ Ret ({| stdout := stdout st;
            stderr := stderr st ++ str (fst (fst r)) ++ newline |},
         (snd (fst r), tt)).
Proof.
  unfold emit.
  rewrite interp_state_bind, interp_state_trigger. cbn. rewrite bind_ret_l. cbn.
  rewrite interp_state_bind, interp_state_trigger. cbn. rewrite bind_ret_l. cbn.
  rewrite interp_state_ret, <- app_assoc. reflexivity.
Qed.

Lemma run_returned {printType : Type}
    (func : printer printType) (obj : printType) (message : bytes)
    (st st' : Streams) (m m' : Memory) :
  run (printLLVMError func obj message) st m ≈ Ret (st', (m', tt)) ->
  exists cs,
    func_returns (func obj) m cs m'
    /\ st' = {| stdout := stdout st;
                stderr := stderr st ++ accumulated message cs ++ newline |}.
Proof.
  intros Hrun.
  assert (Hleaf : Leaf (st', (m', tt)) (run (printLLVMError func obj message) st m))
    by (rewrite Hrun; apply Leaf_Ret).
  unfold run in Hleaf.
  rewrite run_calls_printLLVMError, interp_state_bind in Hleaf.
  apply Leaf_bind_inv in Hleaf. destruct Hleaf as ([st1 r] & Hcall & Hemit).
  destruct (leaf_interp_errs_silent _ _ Hcall (the_call func obj message m) st)
    as [Hst Hr]; [| reflexivity |].
  { intros l Hl.
    eapply (call_silent stringCallback); [exact Hl | unfold the_call; reflexivity]. }
  cbn [fst snd] in *. subst st1.
  destruct (call_returned stringCallback r _ Hr (func obj) (seeded message) m)
    as (cs & Hcs & Hss); [unfold the_call; reflexivity |].
  rewrite run_emit in Hemit. apply Leaf_Ret_inv in Hemit.
  injection Hemit as -> ->.
  exists cs. split; [exact Hcs |]. unfold accumulated. now rewrite <- Hss.
Qed.

Lemma run_bind {printType R S : Type}
    (t : itree (callE printType stringstream +' errsE) R)
    (k : R -> itree (callE printType stringstream +' errsE) S)
    (st : Streams) (m : Memory) :
  run (ITree.bind t k) st m
  ≈ ITree.bind (run t st m)
      (fun r => run (k (snd (snd r))) (fst r) (fst (snd r))).
Proof.
  unfold run, run_calls. rewrite interp_state_bind, interp_state_bind.
  reflexivity.
Qed.

(** X1. A run of [printLLVMError] that has returned is the run of a call
    whose printing function returned, and its streams are the ones that
    function's chunks give: the call never returns ahead of [func], and
    never with another text. *)
Theorem printLLVMError_returns_only_if {printType : Type}
    (func : printer printType) (obj : printType) (message : bytes)
    (st st' : Streams) (m m' : Memory) (n : nat) :
  steps n (run (printLLVMError func obj message) st m) = Some (st', (m', tt)) ->
  exists cs,
    func_returns (func obj) m cs m'
    /\ st' = {| stdout := stdout st;
                stderr := stderr st ++ accumulated message cs ++ newline |}.
Proof.
  intros Hsteps. apply steps_returns in Hsteps.
  exact (run_returned func obj message st st' m m' Hsteps).
Qed.

Lemma printLLVMError_returns_only_if_witness :
  steps 64 (run (printLLVMError one_by_one tt err) no_output abc)
  = Some ({| stdout := [];
             stderr := err ++ [Byte.x61; Byte.x62; Byte.x63; Byte.x0a] |},
          (abc, tt))
  /\ exists cs, func_returns (one_by_one tt) abc cs abc.
Proof.
  assert (Hsteps : steps 64 (run (printLLVMError one_by_one tt err) no_output abc)
                   = Some ({| stdout := [];
                              stderr := err ++ [Byte.x61; Byte.x62; Byte.x63; Byte.x0a] |},
                           (abc, tt)))
    by (vm_compute; reflexivity).
  split; [exact Hsteps |].
  destruct (printLLVMError_returns_only_if one_by_one tt err no_output _ abc abc 64
              Hsteps) as (cs & Hcs & _).
  exists cs. exact Hcs.
Defined.

(** X2. Whatever the chunks, valid or not, the text of a call that returns
    begins with the message and ends with the newline. *)
Theorem printLLVMError_text_framed {printType : Type}
    (func : printer printType) (obj : printType) (message : bytes)
    (st : Streams) (m : Memory) (text : bytes) :
  prints func obj message st m text ->
  exists middle, text = message ++ middle ++ newline.
Proof.
  intros [m' Hrun].
  destruct (run_returned func obj message st _ m m' Hrun) as (cs & _ & Hst).
  injection Hst as Herr. apply app_inv_head in Herr. subst text.
  destruct (run_callbacks_extends cs (seeded message)) as [middle Hmid].
  exists middle. unfold accumulated, str. rewrite Hmid. cbn.
  now rewrite <- app_assoc.
Qed.

Lemma printLLVMError_text_framed_witness :
  prints one_by_one tt err no_output abc
         (err ++ [Byte.x61; Byte.x62; Byte.x63] ++ newline)
  /\ exists middle,
       err ++ [Byte.x61; Byte.x62; Byte.x63] ++ newline = err ++ middle ++ newline.
Proof.
  assert (Hprints : prints one_by_one tt err no_output abc
                           (err ++ [Byte.x61; Byte.x62; Byte.x63] ++ newline)).
  { apply (prints_accumulated one_by_one tt err no_output abc abc abc_one_by_one).
    unfold abc_one_by_one. repeat returns_step. }
  split; [exact Hprints |].
  exact (printLLVMError_text_framed one_by_one tt err no_output abc _ Hprints).
Defined.

(** X3. Two calls in a row: the second printing function starts in the memory
    the first left, and the standard error stream gets the text of the first
    call and then the text of the second, each ended by its newline. *)
Theorem printLLVMError_twice {printType : Type}
    (func1 func2 : printer printType) (obj1 obj2 : printType)
    (message1 message2 : bytes) (st : Streams)
    (m m1 m2 : Memory) (cs1 cs2 : list invocation) :
  func_returns (func1 obj1) m cs1 m1 ->
  func_returns (func2 obj2) m1 cs2 m2 ->
  Forall invocation_valid cs1 ->
  Forall invocation_valid cs2 ->
  run (printLLVMError func1 obj1 message1 ;; printLLVMError func2 obj2 message2)
      st m
  ≈ Ret ({| stdout := stdout st;
            stderr := stderr st
                        ++ (message1 ++ concat (List.map invocation_bytes cs1)
                              ++ newline)
                        ++ (message2 ++ concat (List.map invocation_bytes cs2)
                              ++ newline) |},
         (m2, tt)).
Proof.
  intros Hret1 Hret2 Hvalid1 Hvalid2.
  rewrite run_bind.
  rewrite (run_printLLVMError func1 obj1 message1 st m m1 cs1 Hret1), bind_ret_l.
  cbn [fst snd].
  rewrite (run_printLLVMError func2 obj2 message2 _ m1 m2 cs2 Hret2).
  cbn [stdout stderr].
  rewrite (accumulated_valid message1 cs1 Hvalid1),
          (accumulated_valid message2 cs2 Hvalid2).
  rewrite <- !app_assoc. reflexivity.
Qed.

Lemma printLLVMError_twice_witness :
  func_returns (through_buffer [Byte.x61]) abc
               [(chunk 16 1, mem_store abc 16 Byte.x61)]
               (mem_store abc 16 Byte.x61)
  /\ func_returns (through_buffer [Byte.x62]) (mem_store abc 16 Byte.x61)
                  [(chunk 16 1, mem_store (mem_store abc 16 Byte.x61) 16 Byte.x62)]
                  (mem_store (mem_store abc 16 Byte.x61) 16 Byte.x62)
  /\ run (printLLVMError through_buffer [Byte.x61] err ;;
          printLLVMError through_buffer [Byte.x62] err) no_output abc
     ≈ Ret ({| stdout := [];
               stderr := (err ++ [Byte.x61; Byte.x0a])
                           ++ (err ++ [Byte.x62; Byte.x0a]) |},
            (mem_store (mem_store abc 16 Byte.x61) 16 Byte.x62, tt)).
Proof.
  assert (Hret1 : func_returns (through_buffer [Byte.x61]) abc
                    [(chunk 16 1, mem_store abc 16 Byte.x61)]
                    (mem_store abc 16 Byte.x61))
    by (repeat returns_step).
  assert (Hret2 : func_returns (through_buffer [Byte.x62]) (mem_store abc 16 Byte.x61)
                    [(chunk 16 1, mem_store (mem_store abc 16 Byte.x61) 16 Byte.x62)]
                    (mem_store (mem_store abc 16 Byte.x61) 16 Byte.x62))
    by (repeat returns_step).
  assert (Hvalid1 : Forall invocation_valid
                      [(chunk 16 1, mem_store abc 16 Byte.x61)]) by all_valid.
  assert (Hvalid2 : Forall invocation_valid
                      [(chunk 16 1, mem_store (mem_store abc 16 Byte.x61) 16 Byte.x62)])
    by all_valid.
  split; [exact Hret1 | split; [exact Hret2 |]].
  exact (printLLVMError_twice through_buffer through_buffer
           [Byte.x61] [Byte.x62] err err no_output _ _ _ _ _
           Hret1 Hret2 Hvalid1 Hvalid2).
Defined.
